(** * arbol: the configuration model of [internal/config/config.go]

    A shallow embedding of the path/configuration core of arbol: the
    parser that flattens the decoded TOML tree into [Account.Repos], the
    conflict validator, default-account resolution, the path resolver
    [GetRepos] and the completion listing [RepoPaths].

    Conventions of the embedding:
    - a Go [string] is a Rocq [string] (a sequence of bytes);
    - a Go [map[string]V] held in a struct is a [gmap string V];
    - a [for k, v := range m] loop over a Go map visits the entries in an
      order that the language leaves unspecified and that may change from
      one loop to the next.  Every such loop is modelled by a function
      that takes the visiting order as an explicit list of entries; the
      order is constrained by [range_order], which says that the list is
      an enumeration of the map;
    - the decoded TOML value ([any]) is the tagged type [value]; a decoded
      table is kept as the list of its entries in visiting order. *)

From Stdlib Require Import Ascii String Sorted ZArith DecimalString.
From stdpp Require Import base list gmap strings sorting.

Local Open Scope stdpp_scope.

(** ** The Go library functions used by the source *)

(** Package [strings].  [Split] and [ReplaceAll] are modelled at a
    one-byte separator / pattern, the only way the source calls them
    ([strings.Split(path, ".")], [strings.ReplaceAll(path, ".", "/")]). *)
Module strings.

(** [strings.HasPrefix(s, prefix)] *)
Definition HasPrefix (s prefix : string) : bool := String.prefix prefix s.

(** [strings.HasSuffix(s, suffix)]:
    [len(s) >= len(suffix) && s[len(s)-len(suffix):] == suffix] *)
Definition HasSuffix (s suffix : string) : bool :=
  (String.length suffix <=? String.length s)
  && String.eqb
       (String.substring (String.length s - String.length suffix)
                         (String.length suffix) s)
       suffix.

(** [strings.TrimSuffix(s, suffix)] *)
Definition TrimSuffix (s suffix : string) : string :=
  if HasSuffix s suffix
  then String.substring 0 (String.length s - String.length suffix) s
  else s.

(** [strings.Contains(s, substr)] *)
Fixpoint Contains (s substr : string) : bool :=
  String.prefix substr s
  || match s with
     | EmptyString => false
     | String _ s' => Contains s' substr
     end.

(** [strings.Split(s, sep)] for a separator of one byte. *)
Fixpoint Split (s : string) (sep : ascii) : list string :=
  match s with
  | EmptyString => [EmptyString]
  | String c s' =>
      if Ascii.eqb c sep then EmptyString :: Split s' sep
      else match Split s' sep with
           | hd :: tl => String c hd :: tl
           | [] => [String c EmptyString]
           end
  end.

(** [strings.Join(elems, sep)] *)
Fixpoint Join (elems : list string) (sep : string) : string :=
  match elems with
  | [] => EmptyString
  | [e] => e
  | e :: rest => e +:+ sep +:+ Join rest sep
  end.

(** [strings.ReplaceAll(s, old, new)] for [old] and [new] of one byte. *)
Fixpoint ReplaceAll (s : string) (old new : ascii) : string :=
  match s with
  | EmptyString => EmptyString
  | String c s' =>
      String (if Ascii.eqb c old then new else c) (ReplaceAll s' old new)
  end.

End strings.

(** Package [path/filepath], on a system whose separator is ["/"]. *)
Module filepath.

Definition Separator : ascii := "/"%char.

(** [for len(path) > 0 && os.IsPathSeparator(path[len(path)-1])]
    [{ path = path[0 : len(path)-1] }], on the reversed path. *)
Fixpoint dropSeparators (rpath : string) : string :=
  match rpath with
  | EmptyString => EmptyString
  | String c rest =>
      if Ascii.eqb c Separator then dropSeparators rest else rpath
  end.

(** [i := len(path) - 1; for i >= 0 && !os.IsPathSeparator(path[i]) { i-- }]
    then [path[i+1:]], on the reversed path. *)
Fixpoint lastElement (rpath : string) : string :=
  match rpath with
  | EmptyString => EmptyString
  | String c rest =>
      if Ascii.eqb c Separator then EmptyString
      else String c (lastElement rest)
  end.

(** [filepath.Base(path)] *)
Definition Base (path : string) : string :=
  if String.eqb path "" then "."
  else
    let elem := String.rev (lastElement (dropSeparators (String.rev path))) in
    if String.eqb elem "" then String Separator "" else elem.

End filepath.

(** ** Data model *)

(** [type Repo struct] *)
Record Repo := mkRepo { URL : string; Name : string }.

(** [type Account struct].  [Repos] maps a dotted path to its repos. *)
Record Account := mkAccount {
  Default : bool;
  Root : string;
  Repos : gmap string (list Repo)
}.

(** [type Config struct] *)
Record Config := mkConfig { Accounts : gmap string Account }.

(** [type RepoWithPath struct] *)
Record RepoWithPath := mkRepoWithPath {
  rwpRepo : Repo;
  rwpPath : string;
  rwpFullPath : string;
  rwpName : string
}.

(** The errors built with [fmt.Errorf] in [config.go], one constructor for
    each call, carrying the arguments of the format string in order. *)
Inductive error :=
| MissingAccountsSection
| ConfigConflict (accountName path repoName conflictPath root dirs : string)
| NoDefaultAmbiguous
| AccountNotFound (name : string).

Inductive result (A : Type) :=
| Ok (a : A)
| Err (e : error).
Arguments Ok {A} a.
Arguments Err {A} e.

(** A decoded TOML value, the dynamic type [any] of the source.  A table
    ([map[string]any]) is the list of its entries in the order a [range]
    loop visits them; [VOther] stands for the scalars the code has no case
    for (integers, floats, dates). *)
#[local] Set Warnings "-register-all".
Inductive value :=
| VString (s : string)
| VBool (b : bool)
| VOther
| VArray (items : list value)
| VMap (entries : list (string * value)).

(** [m[key]] on a decoded table. *)
Fixpoint mapIndex (key : string) (m : list (string * value)) : option value :=
  match m with
  | [] => None
  | (k, v) :: rest => if String.eqb k key then Some v else mapIndex key rest
  end.

(** The visiting orders of a [range] loop over the map [m]. *)
Definition range_order {V : Type} (m : gmap string V) (order : list (string * V)) : Prop :=
  order ≡ₚ map_to_list m.

Global Instance Repo_eq_dec : EqDecision Repo.
Proof. solve_decision. Defined.

Global Instance RepoWithPath_eq_dec : EqDecision RepoWithPath.
Proof. solve_decision. Defined.

(** ** [RepoName] and the resolved name *)

(** [func RepoName(url string) string] *)
Definition RepoName (url : string) : string :=
  let base := filepath.Base url in
  strings.TrimSuffix base ".git".

(** The idiom repeated in [Validate], [GetRepos] and [RepoPaths]:
    [name := RepoName(repo.URL); if repo.Name != "" { name = repo.Name }]. *)
Definition resolvedName (repo : Repo) : string :=
  let name := RepoName (URL repo) in
  if negb (String.eqb (Name repo) "") then Name repo else name.

(** ** The parser *)

(** The body of the loop over the items of a repo array. *)
Definition repoOfItem (item : value) : option Repo :=
  match item with
  | VMap repoMap =>
      let url := match mapIndex "url" repoMap with
                 | Some (VString url) => url
                 | _ => ""
                 end in
      let name := match mapIndex "name" repoMap with
                  | Some (VString name) => name
                  | _ => ""
                  end in
      Some (mkRepo url name)
  | _ => None
  end.

Definition repoListOf (v : list value) : list Repo := omap repoOfItem v.

(** One iteration of the loop of [parseReposRecursive], for the entry
    [key, value] of [data]; the map [repos] is updated in place in the
    source and threaded through here. *)
Fixpoint parseEntry (prefix key : string) (value : value)
    (repos : gmap string (list Repo)) {struct value} : gmap string (list Repo) :=
  let currentPath :=
    if String.eqb prefix "" then key else prefix +:+ "." +:+ key in
  match value with
  | VArray v =>
      let path := if String.eqb key "/" then prefix else currentPath in
      <[path := repoListOf v]> repos
  | VMap v =>
      foldl (λ repos kv, parseEntry currentPath kv.1 kv.2 repos) repos v
  | _ => repos
  end.

(** [func parseReposRecursive(data map[string]any, prefix string, repos map[string][]Repo)] *)
Definition parseReposRecursive (data : list (string * value)) (prefix : string)
    (repos : gmap string (list Repo)) : gmap string (list Repo) :=
  foldl (λ repos kv, parseEntry prefix kv.1 kv.2 repos) repos data.

(** ** Operations that depend on the environment

    [os.UserHomeDir()] and [filepath.Join] are taken as given: the home
    directory is a string of the environment, and [filepath.Join] is the
    library function that joins and cleans its elements. *)
Section Environment.

Variable UserHomeDir : string.
Variable filepath_Join : list string → string.

(** [func ExpandPath(path string) string] *)
Definition ExpandPath (path : string) : string :=
  if strings.HasPrefix path "~/" then
    let home := UserHomeDir in
    filepath_Join [home; String.substring 2 (String.length path - 2) path]
  else path.

(** *** [Account.Validate] *)

(** [if subpaths[parentPath] == nil { subpaths[parentPath] = make(map[string]bool) }]
    [subpaths[parentPath][childSegment] = true]; the inner
    [map[string]bool] only ever holds [true] and is a set. *)
Definition addChild (parentPath childSegment : string)
    (subpaths : gmap string (gset string)) : gmap string (gset string) :=
  <[parentPath := {[childSegment]} ∪ default ∅ (subpaths !! parentPath)]> subpaths.

(** The loop [for i := 0; i < len(parts)-1; i++] for one [path]. *)
Definition addSubpaths (path : string)
    (subpaths : gmap string (gset string)) : gmap string (gset string) :=
  let parts := strings.Split path "." in
  foldl (λ subpaths i,
           let parentPath := strings.Join (take (i + 1) parts) "." in
           match parts !! (i + 1) with
           | Some childSegment => addChild parentPath childSegment subpaths
           | None => subpaths
           end)
        subpaths (seq 0 (length parts - 1)).

(** The first loop of [Validate]: [for path := range a.Repos]. *)
Definition buildSubpaths (order : list (string * list Repo)) : gmap string (gset string) :=
  foldl (λ subpaths kv, addSubpaths kv.1 subpaths) ∅ order.

(** [for _, repo := range repos]: the name of the first repo that is also
    a sibling segment. *)
Fixpoint findConflict (siblings : gset string) (repos : list Repo) : option string :=
  match repos with
  | [] => None
  | repo :: rest =>
      let repoName := resolvedName repo in
      if bool_decide (repoName ∈ siblings) then Some repoName
      else findConflict siblings rest
  end.

(** The second loop of [Validate]: [for path, repos := range a.Repos]. *)
Fixpoint checkPaths (accountName : string) (a : Account)
    (subpaths : gmap string (gset string))
    (order : list (string * list Repo)) : option error :=
  match order with
  | [] => None
  | (path, repos) :: rest =>
      match subpaths !! path with
      | None => checkPaths accountName a subpaths rest
      | Some siblings =>
          match findConflict siblings repos with
          | Some repoName =>
              let conflictPath := path +:+ "." +:+ repoName in
              Some (ConfigConflict accountName path repoName conflictPath
                      (ExpandPath (Root a))
                      (strings.ReplaceAll conflictPath "." "/"))
          | None => checkPaths accountName a subpaths rest
          end
      end
  end.

(** The error [Validate] returns for the repo [repo] stored at [path]. *)
Definition conflictError (accountName : string) (a : Account)
    (path : string) (repo : Repo) : error :=
  let repoName := resolvedName repo in
  let conflictPath := path +:+ "." +:+ repoName in
  ConfigConflict accountName path repoName conflictPath
    (ExpandPath (Root a))
    (strings.ReplaceAll conflictPath "." "/").

(** [func (a *Account) Validate(accountName string) error], with the
    visiting orders of its two loops; [None] is the [nil] error. *)
Definition Account_Validate_range (a : Account) (accountName : string)
    (order1 order2 : list (string * list Repo)) : option error :=
  checkPaths accountName a (buildSubpaths order1) order2.

(** [func (c *Config) Validate() error]: [order] is the order in which the
    accounts are visited, [inner name] the two orders used by the
    validation of the account [name]. *)
Fixpoint Config_Validate_range (order : list (string * Account))
    (inner : string → list (string * list Repo) * list (string * list Repo))
    : option error :=
  match order with
  | [] => None
  | (accountName, account) :: rest =>
      match Account_Validate_range account accountName
              (inner accountName).1 (inner accountName).2 with
      | Some err => Some err
      | None => Config_Validate_range rest inner
      end
  end.

(** *** [LoadFromPath], from the decoded file on *)

(** The body of the loop over [accountsRaw] for a table [accountMap]. *)
Definition parseAccount (accountMap : list (string * value)) : Account :=
  let def := match mapIndex "default" accountMap with
             | Some (VBool def) => def
             | _ => false
             end in
  let root := match mapIndex "root" accountMap with
              | Some (VString root) => root
              | _ => ""
              end in
  let repos := match mapIndex "repos" accountMap with
               | Some (VMap reposRaw) => parseReposRecursive reposRaw "" ∅
               | _ => ∅
               end in
  mkAccount def root repos.

(** [for accountName, accountData := range accountsRaw] *)
Definition loadAccounts (accountsRaw : list (string * value)) : gmap string Account :=
  foldl (λ accounts kv,
           match kv.2 with
           | VMap accountMap => <[kv.1 := parseAccount accountMap]> accounts
           | _ => accounts
           end)
        ∅ accountsRaw.

(** [LoadFromPath] after [os.ReadFile] and [toml.Unmarshal] have produced
    the decoded table [raw]. *)
Definition LoadFromPath_range (raw : list (string * value))
    (order : list (string * Account))
    (inner : string → list (string * list Repo) * list (string * list Repo))
    : result Config :=
  match mapIndex "accounts" raw with
  | Some (VMap accountsRaw) =>
      let config := mkConfig (loadAccounts accountsRaw) in
      match Config_Validate_range order inner with
      | Some err => Err err
      | None => Ok config
      end
  | _ => Err MissingAccountsSection
  end.

(** *** [Account.GetRepos] *)

(** Lines 239-243: [true] when the loop moves on to the next path. *)
Definition pathSkipped (path pathFilter : string) : bool :=
  negb (String.eqb pathFilter "")
  && (negb (strings.HasPrefix path pathFilter)
      && negb (strings.HasPrefix pathFilter path)).

(** Lines 255-268: [true] when the inner loop reaches [continue]. *)
Definition repoSkipped (path name pathFilter : string) : bool :=
  if negb (String.eqb pathFilter "") && strings.Contains pathFilter "." then
    let fullRepoPath := path +:+ "." +:+ name in
    if negb (strings.HasPrefix fullRepoPath pathFilter)
       && negb (String.eqb fullRepoPath pathFilter) then
      let parts := strings.Split pathFilter "." in
      let filterPath := strings.Join (take (length parts - 1) parts) "." in
      let filterName := default "" (parts !! (length parts - 1)) in
      if negb (String.eqb filterPath path) || negb (String.eqb filterName name) then
        length (strings.Split path ".") + 1 <? length parts
      else false
    else false
  else false.

(** The record appended for [repo] at [path]. *)
Definition resolveRepo (rootPath path dirPath : string) (repo : Repo) : RepoWithPath :=
  let name := resolvedName repo in
  let fullPath := filepath_Join [rootPath; dirPath; name] in
  mkRepoWithPath repo path fullPath name.

(** [for _, repo := range repos], appending to [result]. *)
Definition appendRepos (rootPath path dirPath pathFilter : string)
    (repos : list Repo) (result : list RepoWithPath) : list RepoWithPath :=
  foldl (λ result repo,
           if repoSkipped path (resolvedName repo) pathFilter then result
           else result ++ [resolveRepo rootPath path dirPath repo])
        result repos.

(** [func (a *Account) GetRepos(pathFilter string) []RepoWithPath], with
    the visiting order of its loop over [a.Repos]. *)
Definition Account_GetRepos_range (a : Account)
    (order : list (string * list Repo)) (pathFilter : string) : list RepoWithPath :=
  let rootPath := ExpandPath (Root a) in
  foldl (λ result kv,
           if pathSkipped kv.1 pathFilter then result
           else
             let dirPath := strings.ReplaceAll kv.1 "." filepath.Separator in
             appendRepos rootPath kv.1 dirPath pathFilter kv.2 result)
        [] order.

(** The record [GetRepos] appends for [repo] stored at [path]. *)
Definition resolved (a : Account) (path : string) (repo : Repo) : RepoWithPath :=
  resolveRepo (ExpandPath (Root a)) path
    (strings.ReplaceAll path "." filepath.Separator) repo.

(** The outcomes of a call [a.GetRepos(pathFilter)]. *)
Definition Account_GetRepos (a : Account) (pathFilter : string)
    (res : list RepoWithPath) : Prop :=
  ∃ order, range_order (Repos a) order
           ∧ res = Account_GetRepos_range a order pathFilter.

End Environment.

(** ** [Config.DefaultAccount] and [Config.GetAccount] *)

(** The first loop of [DefaultAccount]. *)
Fixpoint firstDefault (order : list (string * Account)) : option (Account * string) :=
  match order with
  | [] => None
  | (name, account) :: rest =>
      if Default account then Some (account, name) else firstDefault rest
  end.

(** [func (c *Config) DefaultAccount()], returning the account, its name and an error, with the
    visiting orders of its two loops. *)
Definition Config_DefaultAccount_range (c : Config)
    (order1 order2 : list (string * Account)) : result (Account * string) :=
  match firstDefault order1 with
  | Some found => Ok found
  | None =>
      if size (Accounts c) =? 1 then
        match order2 with
        | (name, account) :: _ => Ok (account, name)
        | [] => Err NoDefaultAmbiguous
        end
      else Err NoDefaultAmbiguous
  end.

(** [func (c *Config) GetAccount(name string)], returning the account and an error *)
Definition Config_GetAccount (c : Config) (name : string) : result Account :=
  match Accounts c !! name with
  | Some account => Ok account
  | None => Err (AccountNotFound name)
  end.

(** ** [Account.RepoPaths] *)

(** [if !seen[p] { paths = append(paths, p); seen[p] = true }] *)
Definition addPath (p : string) (st : list string * gset string) : list string * gset string :=
  if bool_decide (p ∈ st.2) then st else (st.1 ++ [p], {[p]} ∪ st.2).

(** [func (a *Account) RepoPaths() []string], with the visiting order of
    its loop over [a.Repos]. *)
Definition Account_RepoPaths_range (order : list (string * list Repo)) : list string :=
  (foldl (λ st kv,
            foldl (λ st repo, addPath (kv.1 +:+ "." +:+ resolvedName repo) st)
                  (addPath kv.1 st) kv.2)
         ([], ∅) order).1.

(** ** Vocabulary of the statements *)

(** *** Strings and paths *)

(** [occurs c s]: the byte [c] occurs in [s]. *)
Fixpoint occurs (c : ascii) (s : string) : Prop :=
  match s with
  | EmptyString => False
  | String a s' => a = c ∨ occurs c s'
  end.

(** A string made of path separators only. *)
Definition onlySeparators (s : string) : Prop :=
  ∀ c, occurs c s → c = filepath.Separator.

(** [seg] is the last path segment of [url]: it is not empty, holds no
    separator, is followed by separators only and is preceded by nothing
    or by a part that ends with a separator. *)
Definition lastPathSegment (url seg : string) : Prop :=
  seg ≠ "" ∧ ¬ occurs filepath.Separator seg
  ∧ ∃ before after,
      onlySeparators after
      ∧ (url = seg +:+ after
         ∨ url = before +:+ String filepath.Separator "" +:+ seg +:+ after).

(** The dot-separated segments of a logical path. *)
Definition segments (path : string) : list string := strings.Split path ".".

(** The qualified name [path + "." + name] of a repo stored at [path]. *)
Definition qualifiedName (path : string) (repo : Repo) : string :=
  path +:+ "." +:+ resolvedName repo.

(** *** The parser *)

(** A key of [Repos] that has the marker ["/"] among its segments. *)
Definition hasSlashSegment (path : string) : Prop := "/" ∈ segments path.

(** A key of the decoded tree that is one segment: it contains no dot. *)
Definition plainKey (key : string) : bool := negb (strings.Contains key ".").

(** A decoded subtree stored under [key] in which every key is one
    segment and the marker ["/"] never holds a nested table. *)
Fixpoint plainValue (key : string) (v : value) : bool :=
  match v with
  | VMap entries =>
      negb (String.eqb key "/")
      && forallb (λ kv, plainKey kv.1 && plainValue kv.1 kv.2) entries
  | _ => true
  end.

Definition plainTree (data : list (string * value)) : bool :=
  forallb (λ kv, plainKey kv.1 && plainValue kv.1 kv.2) data.

(** A decoded file in which the [repos] table of every account is plain. *)
Definition plainConfig (raw : list (string * value)) : Prop :=
  ∀ accountsRaw name accountMap reposRaw,
    mapIndex "accounts" raw = Some (VMap accountsRaw) →
    (name, VMap accountMap) ∈ accountsRaw →
    mapIndex "repos" accountMap = Some (VMap reposRaw) →
    plainTree reposRaw = true.

(** *** The conflict validator *)

(** The key [key] has [path] as a strict dot-prefix and implies the child
    segment [child] under it: [key] is [path.child] or [path.child.more]. *)
Definition impliesChild (path key child : string) : Prop :=
  ∃ deeper, segments key = segments path ++ child :: deeper.

(** The conflict rule: some path of [Repos] holds a repo whose resolved
    name is a child segment implied under that path by another key. *)
Definition hasConflict (a : Account) : Prop :=
  ∃ path repos repo key,
    Repos a !! path = Some repos ∧ repo ∈ repos
    ∧ key ∈ dom (Repos a)
    ∧ impliesChild path key (resolvedName repo).

(** The child segments recorded under [path] in [subpaths]. *)
Definition children (subpaths : gmap string (gset string)) (path : string) : gset string :=
  default ∅ (subpaths !! path).

(** The test made by the inner loop of the first loop of [Validate]:
    position [i] of the segments of [key] records [child] under [path]. *)
Definition recordsChild (key : string) (i : nat) (path child : string) : Prop :=
  strings.Join (take (i + 1) (segments key)) "." = path
  ∧ segments key !! (i + 1) = Some child.

(** The visiting orders handed to the validation of [c] are enumerations
    of the maps they visit. *)
Definition validOrders (c : Config) (order : list (string * Account))
    (inner : string → list (string * list Repo) * list (string * list Repo)) : Prop :=
  range_order (Accounts c) order
  ∧ ∀ name a, Accounts c !! name = Some a →
      range_order (Repos a) (inner name).1 ∧ range_order (Repos a) (inner name).2.

(** *** The default account *)

(** No account of [c] is flagged default. *)
Definition noneDefault (c : Config) : Prop :=
  ∀ name account, Accounts c !! name = Some account → Default account = false.

(** The account [name] is the only one of [c] flagged default. *)
Definition onlyDefault (c : Config) (name : string) (account : Account) : Prop :=
  Accounts c !! name = Some account ∧ Default account = true
  ∧ ∀ name' account', Accounts c !! name' = Some account' →
      Default account' = true → name' = name.

(** *** [RepoPaths] *)

(** The strings [RepoPaths] is meant to list: every key of [Repos] and
    the qualified name of every repo. *)
Definition isRepoPath (a : Account) (s : string) : Prop :=
  ∃ path repos, Repos a !! path = Some repos
    ∧ (s = path ∨ ∃ repo, repo ∈ repos ∧ s = qualifiedName path repo).

(** The loop state of [RepoPaths]: [seen] is the set of the strings of
    [paths], which has no duplicates. *)
Definition pathsInv (st : list string * gset string) : Prop :=
  NoDup st.1 ∧ ∀ x, x ∈ st.2 ↔ x ∈ st.1.

(** ** Example configurations *)

(** A stand-in for [filepath.Join] on elements that are already clean,
    used to run the functions on examples. *)
Definition joinWithSlash (elems : list string) : string := strings.Join elems "/".

(** The decoded array item [{ url = "..." }]. *)
Definition urlItem (url : string) : value := VMap [("url", VString url)].

(** The tree of [repos.a.b = [{url="u1"}]] and [repos.a."/" = [{url="u2"}]],
    in the two orders in which the table [a] can be visited. *)
Definition roundTripTree : list (string * value) :=
  [("a", VMap [("b", VArray [urlItem "u1"]); ("/", VArray [urlItem "u2"])])].

Definition roundTripTree' : list (string * value) :=
  [("a", VMap [("/", VArray [urlItem "u2"]); ("b", VArray [urlItem "u1"])])].

(** The tree of [repos.a."/".b = [{url="u"}]]: a table under the marker. *)
Definition markerTableTree : list (string * value) :=
  [("a", VMap [("/", VMap [("b", VArray [urlItem "u"])])])].

(** The decoded [repos] table of the conflict example:
    [repos.personal."/" = [{url = ".../dotfiles.git"}]] and
    [repos.personal.dotfiles = [{url = ".../other.git"}]]; the decoded
    file that holds it in the account [home], that account as the parser
    builds it, and the entries of its [Repos]. *)
Definition conflictTree : list (string * value) :=
  [("personal",
    VMap [("/", VArray [urlItem "git@github.com:me/dotfiles.git"]);
          ("dotfiles", VArray [urlItem "git@github.com:me/other.git"])])].

Definition conflictRaw : list (string * value) :=
  [("accounts",
    VMap [("home", VMap [("default", VBool true); ("root", VString "~/Projects");
                         ("repos", VMap conflictTree)])])].

Definition conflictAccount : Account :=
  parseAccount [("default", VBool true); ("root", VString "~/Projects");
                ("repos", VMap conflictTree)].

Definition conflictOrder : list (string * list Repo) :=
  [("personal", [mkRepo "git@github.com:me/dotfiles.git" ""]);
   ("personal.dotfiles", [mkRepo "git@github.com:me/other.git" ""])].

(** The account of the filter example: [work.backend] holds [api] and
    [worker], [personal] holds [dotfiles]. *)
Definition apiRepo : Repo := mkRepo "git@github.com:company/api.git" "".
Definition workerRepo : Repo := mkRepo "git@github.com:company/worker.git" "".
Definition dotfilesRepo : Repo := mkRepo "git@github.com:me/dotfiles.git" "".

Definition filterAccount : Account :=
  mkAccount true "~/Projects"
    (list_to_map [("work.backend", [apiRepo; workerRepo]);
                  ("personal", [dotfilesRepo])]).

Definition filterOrder : list (string * list Repo) :=
  [("work.backend", [apiRepo; workerRepo]); ("personal", [dotfilesRepo])].

Definition filterOrder' : list (string * list Repo) :=
  [("personal", [dotfilesRepo]); ("work.backend", [apiRepo; workerRepo])].

(** An account whose only key is ["workshop"]. *)
Definition slidesRepo : Repo := mkRepo "git@github.com:me/slides.git" "".

Definition workshopAccount : Account :=
  mkAccount false "/srv/repos" (list_to_map [("workshop", [slidesRepo])]).

(** An account with one repo named [b] at the key ["a"], and one whose
    key ["a"] holds the repos [z] and [b], in that order. *)
Definition bRepo : Repo := mkRepo "https://example.org/team/b.git" "".
Definition zRepo : Repo := mkRepo "https://example.org/team/z.git" "".

Definition shallowAccount : Account :=
  mkAccount false "/srv/repos" (list_to_map [("a", [bRepo])]).

Definition unsortedAccount : Account :=
  mkAccount false "/srv/repos" (list_to_map [("a", [zRepo; bRepo])]).

(** Three accounts, the second of which is flagged default; the same
    three with no flag; and a single account without flag. *)
Definition homeAccount : Account := mkAccount false "~/Projects" ∅.
Definition workAccount : Account := mkAccount true "~/Code" ∅.
Definition spareAccount : Account := mkAccount false "~/Spare" ∅.

Definition threeAccounts : Config :=
  mkConfig (list_to_map [("home", homeAccount); ("work", workAccount);
                         ("spare", spareAccount)]).

Definition threeOrder : list (string * Account) :=
  [("home", homeAccount); ("work", workAccount); ("spare", spareAccount)].

(** ** The callers in [internal/commands] *)

(** [func (c *Config) AccountNames() []string], with the visiting order of
    its loop over [c.Accounts]. *)
Definition Config_AccountNames_range (order : list (string * Account)) : list string :=
  foldl (λ names kv, names ++ [kv.1]) [] order.

(** [sort.Strings]: the library sorts the slice in increasing byte order.
    Strings that compare equal are equal, so the sorted slice is the same
    for every sorting algorithm; merge sort computes it here. *)
Definition sort_Strings (l : list string) : list string := merge_sort String.le l.

(** [func getAccount()] of [root.go]; the globals [cfg] and [accountFlag]
    are parameters. *)
Definition getAccount (cfg : Config) (accountFlag : string)
    (order1 order2 : list (string * Account)) : result (Account * string) :=
  if negb (String.eqb accountFlag "") then
    match Config_GetAccount cfg accountFlag with
    | Err err => Err err
    | Ok account => Ok (account, accountFlag)
    end
  else Config_DefaultAccount_range cfg order1 order2.

(** The loop that prints the candidates of a completion command:
    [if prefix == "" || strings.HasPrefix(path, prefix) { fmt.Println(path) }];
    the result is the list of the lines printed. *)
Definition printWithPrefix (prefix : string) (paths : list string) : list string :=
  foldl (λ out path,
           if String.eqb prefix "" || strings.HasPrefix path prefix
           then out ++ [path] else out)
        [] paths.

(** [prefix := ""; if len(args) > 0 { prefix = args[0] }] *)
Definition firstArg (args : list string) : string :=
  match args with
  | [] => ""
  | arg :: _ => arg
  end.

(** [completePathCmd.RunE] of [complete.go]: [loaded] is the outcome of
    [loadConfigForCompletion()], [repoOrder] the visiting order of the
    loop of [RepoPaths] for the selected account; the result is the list
    of the lines printed (the command itself always returns [nil]). *)
Definition completePath (loaded : result Config) (accountFlag : string)
    (args : list string) (order1 order2 : list (string * Account))
    (repoOrder : list (string * list Repo)) : list string :=
  match loaded with
  | Err _ => []
  | Ok cfg =>
      let selected :=
        if negb (String.eqb accountFlag "") then Config_GetAccount cfg accountFlag
        else match Config_DefaultAccount_range cfg order1 order2 with
             | Ok (account, _) => Ok account
             | Err err => Err err
             end in
      match selected with
      | Err _ => []
      | Ok account =>
          let prefix := firstArg args in
          let paths := sort_Strings (Account_RepoPaths_range repoOrder) in
          printWithPrefix prefix paths
      end
  end.

(** [completeAccountCmd.RunE] of [complete.go]. *)
Definition completeAccount (loaded : result Config) (args : list string)
    (order : list (string * Account)) : list string :=
  match loaded with
  | Err _ => []
  | Ok cfg =>
      let prefix := firstArg args in
      let names := sort_Strings (Config_AccountNames_range order) in
      printWithPrefix prefix names
  end.

(** ** The table output of [status.go] *)

(** [fmt.Sprintf("%d", n)] *)
Definition itoa (n : Z) : string := NilZero.string_of_int (Z.to_int n).

(** An [int] expression evaluated on 64 bits. *)
Definition wrapInt (z : Z) : Z := ((z + 2 ^ 63) mod 2 ^ 64 - 2 ^ 63)%Z.

(** [strings.Repeat(s, count)] for a count that is not negative. *)
Fixpoint Repeat (s : string) (count : nat) : string :=
  match count with
  | O => ""
  | S count' => s +:+ Repeat s count'
  end.

(** [func truncate(s string, maxLen int) string]; [None] is the run-time
    panic of the slice expression [s[:maxLen-1]] when its bound is
    negative or exceeds [len(s)]. *)
Definition truncate (s : string) (maxLen : Z) : option string :=
  if (Z.of_nat (String.length s) <=? maxLen)%Z then Some s
  else
    let high := wrapInt (maxLen - 1) in
    if ((0 <=? high) && (high <=? Z.of_nat (String.length s)))%Z
    then Some (String.substring 0 (Z.to_nat high) s +:+ "…")
    else None.

(** The rune that a [for _, r := range s] loop decodes at a byte [b0]
    followed by [rest], with the number of bytes it takes: the run-time
    function [decoderune], which yields U+FFFD and one byte on an invalid
    or incomplete sequence. *)
Definition runeError : N := 0xFFFD.

Definition isContinuation (c : ascii) : bool :=
  ((0x80 <=? N_of_ascii c) && (N_of_ascii c <=? 0xBF))%N.

Definition lowBits (c : ascii) : N := N.land (N_of_ascii c) 0x3F.

Definition decoderune (b0 : ascii) (rest : string) : N * nat :=
  let v0 := N_of_ascii b0 in
  if ((0xC0 <=? v0) && (v0 <? 0xE0))%N then
    match rest with
    | String b1 _ =>
        if isContinuation b1 then
          let r := N.lor (N.shiftl (N.land v0 0x1F) 6) (lowBits b1) in
          if (0x7F <? r)%N then (r, 2) else (runeError, 1)
        else (runeError, 1)
    | _ => (runeError, 1)
    end
  else if ((0xE0 <=? v0) && (v0 <? 0xF0))%N then
    match rest with
    | String b1 (String b2 _) =>
        if isContinuation b1 && isContinuation b2 then
          let r := N.lor (N.lor (N.shiftl (N.land v0 0x0F) 12)
                                (N.shiftl (lowBits b1) 6))
                         (lowBits b2) in
          if ((0x7FF <? r) && negb ((0xD800 <=? r) && (r <=? 0xDFFF)))%N
          then (r, 3) else (runeError, 1)
        else (runeError, 1)
    | _ => (runeError, 1)
    end
  else if ((0xF0 <=? v0) && (v0 <? 0xF8))%N then
    match rest with
    | String b1 (String b2 (String b3 _)) =>
        if isContinuation b1 && isContinuation b2 && isContinuation b3 then
          let r := N.lor (N.lor (N.lor (N.shiftl (N.land v0 0x07) 18)
                                       (N.shiftl (lowBits b1) 12))
                                (N.shiftl (lowBits b2) 6))
                         (lowBits b3) in
          if ((0xFFFF <? r) && (r <=? 0x10FFFF))%N
          then (r, 4) else (runeError, 1)
        else (runeError, 1)
    | _ => (runeError, 1)
    end
  else (runeError, 1).

(** One step of a range loop over a string: bytes below [0x80] are runes
    of their own. *)
Definition nextRune (b0 : ascii) (rest : string) : N * nat :=
  if (N_of_ascii b0 <? 0x80)%N then (N_of_ascii b0, 1) else decoderune b0 rest.

(** The loop of [padRight] over the runes of [s]: [skip] counts the bytes
    of the current rune still to pass, [inEscape] and [visible] are the
    variables of the source. *)
Fixpoint countVisible (s : string) (skip : nat) (inEscape : bool) (visible : Z) : Z :=
  match s with
  | EmptyString => visible
  | String b rest =>
      match skip with
      | S skip' => countVisible rest skip' inEscape visible
      | O =>
          let (r, width) := nextRune b rest in
          if (r =? 0x1B)%N then countVisible rest (width - 1) true visible
          else if inEscape && (r =? 0x6D)%N then
            countVisible rest (width - 1) false visible
          else if negb inEscape then
            countVisible rest (width - 1) inEscape (visible + 1)
          else countVisible rest (width - 1) inEscape visible
      end
  end.

(** [func padRight(s string, width int) string] *)
Definition padRight (s : string) (width : Z) : string :=
  let visible := countVisible s 0 false 0 in
  if (width <=? visible)%Z then s
  else s +:+ Repeat " " (Z.to_nat (width - visible)).

(** The ANSI colour codes; ["027"] is the escape byte. *)
Definition colorReset : string := String "027" "[0m".
Definition colorGreen : string := String "027" "[32m".
Definition colorYellow : string := String "027" "[33m".
Definition colorRed : string := String "027" "[31m".
Definition colorCyan : string := String "027" "[36m".
Definition colorMagenta : string := String "027" "[35m".
Definition colorGray : string := String "027" "[90m".

(** [func stripAnsi(s string) string] *)
Definition stripAnsi (s : string) : string := s.

(** [func colorize(color, text string) string]; the flag [noColor] and the
    answer of [isTerminal()] are parameters. *)
Definition colorize (noColor isTerminal : bool) (color text : string) : string :=
  if noColor || negb isTerminal then stripAnsi text
  else color +:+ text +:+ colorReset.

(** The fields of [git.RepoStatus] that the REMOTE column reads. *)
Record RepoStatus := mkRepoStatus {
  IsDetached : bool;
  NoTracking : bool;
  Behind : Z;
  Ahead : Z
}.

(** [printRepoStatus], "Format remote status": the text of the REMOTE
    cell and the comments it adds. *)
Definition remoteText (status : RepoStatus) : string * list string :=
  if IsDetached status then ("✔", ["detached HEAD"])
  else if NoTracking status then ("↑?", ["no tracking branch"])
  else if ((0 <? Ahead status) && (0 <? Behind status))%Z then
    ("↓" +:+ itoa (Behind status) +:+ " ↑" +:+ itoa (Ahead status), ["diverged"])
  else if (0 <? Behind status)%Z then
    ("↓" +:+ itoa (Behind status), [itoa (Behind status) +:+ " commits behind origin"])
  else if (0 <? Ahead status)%Z then
    ("↑" +:+ itoa (Ahead status), [itoa (Ahead status) +:+ " unpushed commits"])
  else ("✔", []).

(** [printRepoStatus]: the colour chosen for the REMOTE cell. *)
Definition remoteColor (status : RepoStatus) : string :=
  if IsDetached status
     || (negb (NoTracking status) && (Ahead status =? 0) && (Behind status =? 0))%Z
  then colorGreen
  else if NoTracking status || ((0 <? Ahead status) && (Behind status =? 0))%Z
  then colorYellow
  else if ((0 <? Behind status) && (Ahead status =? 0))%Z then colorRed
  else colorMagenta.

(** ** The [sync] command *)

(** What the calls [git.Exists], [git.Fetch] and [git.Clone] answer for
    one repo; an error is given by its message. *)
Record gitOutcome := mkGitOutcome {
  gitExists : bool;
  gitFetchErr : option string;
  gitCloneErr : option string
}.

(** The lines printed so far and the four counters of [syncCmd.RunE]. *)
Record syncState := mkSyncState {
  syncOut : list string;
  cloned : Z;
  fetched : Z;
  skipped : Z;
  failed : Z
}.

(** The body of the loop of [syncCmd.RunE] for one repo. *)
Definition syncRepo (fetchFlag : bool) (repo : RepoWithPath) (o : gitOutcome)
    (st : syncState) : syncState :=
  let displayPath := rwpPath repo +:+ "." +:+ rwpName repo in
  if gitExists o then
    if fetchFlag then
      let out := syncOut st ++ ["  fetch " +:+ displayPath] in
      match gitFetchErr o with
      | Some err =>
          mkSyncState (out ++ ["  error " +:+ displayPath +:+ ": " +:+ err])
            (cloned st) (fetched st) (skipped st) (failed st + 1)
      | None =>
          mkSyncState out (cloned st) (fetched st + 1) (skipped st) (failed st)
      end
    else
      mkSyncState (syncOut st ++ ["  skip  " +:+ displayPath +:+ " (already exists)"])
        (cloned st) (fetched st) (skipped st + 1) (failed st)
  else
    let out := syncOut st ++ ["  clone " +:+ displayPath] in
    match gitCloneErr o with
    | Some err =>
        mkSyncState (out ++ ["  error " +:+ displayPath +:+ ": " +:+ err])
          (cloned st) (fetched st) (skipped st) (failed st + 1)
    | None =>
        mkSyncState out (cloned st + 1) (fetched st) (skipped st) (failed st)
    end.

(** [for _, repo := range repos]; [observe i] is what git answers for the
    repo at position [i]. *)
Fixpoint syncLoop (fetchFlag : bool) (observe : nat → gitOutcome) (i : nat)
    (repos : list RepoWithPath) (st : syncState) : syncState :=
  match repos with
  | [] => st
  | repo :: rest =>
      syncLoop fetchFlag observe (S i) rest (syncRepo fetchFlag repo (observe i) st)
  end.

(** "Build summary based on what was done", before the test
    [len(summary) == 0]. *)
Definition summaryParts (st : syncState) : list string :=
  let summary := [] in
  let summary :=
    if (0 <? cloned st)%Z then summary ++ [itoa (cloned st) +:+ " cloned"]
    else summary in
  let summary :=
    if (0 <? fetched st)%Z then summary ++ [itoa (fetched st) +:+ " fetched"]
    else summary in
  let summary :=
    if (0 <? skipped st)%Z then summary ++ [itoa (skipped st) +:+ " skipped"]
    else summary in
  if (0 <? failed st)%Z then summary ++ [itoa (failed st) +:+ " failed"]
  else summary.

Definition syncSummary (st : syncState) : list string :=
  let summary := summaryParts st in
  if length summary =? 0 then summary ++ ["nothing to do"] else summary.

Section Commands.

Variable UserHomeDir : string.
Variable filepath_Join : list string → string.

(** [syncCmd.RunE]: the lines printed (a line break inside a format is a
    new line of the list) and the error returned. *)
Definition syncRun (cfg : Config) (accountFlag : string) (args : list string)
    (order1 order2 : list (string * Account))
    (repoOrder : list (string * list Repo))
    (fetchFlag : bool) (observe : nat → gitOutcome) : list string * option error :=
  match getAccount cfg accountFlag order1 order2 with
  | Err err => ([], Some err)
  | Ok (account, accountName) =>
      let pathFilter := firstArg args in
      let repos :=
        Account_GetRepos_range UserHomeDir filepath_Join account repoOrder pathFilter in
      if length repos =? 0 then
        if negb (String.eqb pathFilter "") then
          (["No repos found matching '" +:+ pathFilter +:+ "' in account '"
              +:+ accountName +:+ "'"], None)
        else
          (["No repos configured in account '" +:+ accountName +:+ "'"], None)
      else
        let st := syncLoop fetchFlag observe 0 repos (mkSyncState [] 0 0 0 0) in
        (syncOut st ++ [""; "Summary: " +:+ strings.Join (syncSummary st) ", "], None)
  end.

End Commands.

(** A string of ASCII bytes without the escape byte: each byte is a rune
    that [padRight] counts as visible outside an escape sequence. *)
Fixpoint plainAscii (s : string) : bool :=
  match s with
  | EmptyString => true
  | String b rest =>
      (N_of_ascii b <? 0x80)%N && negb (N_of_ascii b =? 0x1B)%N && plainAscii rest
  end.

(** The colours [printRepoStatus] passes to [colorize]. *)
Definition palette : list string :=
  [colorGreen; colorYellow; colorRed; colorCyan; colorMagenta; colorGray].

(** [reordered v v']: [v'] is the decoded value [v] with the entries of
    its tables (outside arrays) enumerated in another order, as a [range]
    loop may visit them. *)
Inductive reordered : value → value → Prop :=
| reordered_same (v : value) : reordered v v
| reordered_table (entries perm entries' : list (string * value)) :
    Forall2 (λ kv kv', kv.1 = kv'.1 ∧ reordered kv.2 kv'.2) entries perm →
    perm ≡ₚ entries' →
    reordered (VMap entries) (VMap entries').

(** The assignments [repos[path] = repoList] that [parseReposRecursive]
    makes for the entry [key, v] under [prefix], in the order it makes
    them. *)
Fixpoint writesEntry (prefix key : string) (v : value) : list (string * list Repo) :=
  let currentPath :=
    if String.eqb prefix "" then key else prefix +:+ "." +:+ key in
  match v with
  | VArray items =>
      [(if String.eqb key "/" then prefix else currentPath, repoListOf items)]
  | VMap entries => entries ≫= λ kv, writesEntry currentPath kv.1 kv.2
  | _ => []
  end.

Definition writes (prefix : string) (data : list (string * value))
    : list (string * list Repo) :=
  data ≫= λ kv, writesEntry prefix kv.1 kv.2.

(** The tables [repos."" = [u1]; repos."/" = [u2]] in their two orders:
    both arrays are stored at the empty path. *)
Definition clashTree : list (string * value) :=
  [("", VArray [urlItem "u1"]); ("/", VArray [urlItem "u2"])].

Definition clashTree' : list (string * value) :=
  [("/", VArray [urlItem "u2"]); ("", VArray [urlItem "u1"])].

(** * Properties *)

(** ** The functions on examples *)

Example Split_example :
  strings.Split "work.backend.api" "." = ["work"; "backend"; "api"]
  ∧ strings.Split "personal" "." = ["personal"]
  ∧ strings.Split "" "." = [""]
  ∧ strings.Split "a..b." "." = ["a"; ""; "b"; ""].
Proof. by split_and!. Qed.

Example Join_example :
  strings.Join ["work"; "backend"] "." = "work.backend"
  ∧ strings.Join [] "." = "".
Proof. by split_and!. Qed.

Example Base_example :
  filepath.Base "git@github.com:org/my-repo.git" = "my-repo.git"
  ∧ filepath.Base "https://example.org/team/tool.git//" = "tool.git"
  ∧ filepath.Base "plain" = "plain"
  ∧ filepath.Base "" = "."
  ∧ filepath.Base "///" = "/".
Proof. by split_and!. Qed.

Example TrimSuffix_example :
  strings.TrimSuffix "my-repo.git" ".git" = "my-repo"
  ∧ strings.TrimSuffix "my-repo" ".git" = "my-repo"
  ∧ strings.TrimSuffix ".git" ".git" = "".
Proof. by split_and!. Qed.

Example ReplaceAll_example :
  strings.ReplaceAll "work.backend" "." filepath.Separator = "work/backend".
Proof. reflexivity. Qed.

Example ExpandPath_example :
  ExpandPath "/home/u" joinWithSlash "~/Projects" = "/home/u/Projects"
  ∧ ExpandPath "/home/u" joinWithSlash "/srv/repos" = "/srv/repos".
Proof. by split_and!. Qed.

Example GetRepos_subtree_example :
  Account_GetRepos_range "/home/u" joinWithSlash filterAccount filterOrder "work"
  = [mkRepoWithPath apiRepo "work.backend" "/home/u/Projects/work/backend/api" "api";
     mkRepoWithPath workerRepo "work.backend"
       "/home/u/Projects/work/backend/worker" "worker"].
Proof. reflexivity. Qed.

Example DefaultAccount_example :
  Config_DefaultAccount_range threeAccounts threeOrder threeOrder
  = Ok (workAccount, "work")
  ∧ Config_DefaultAccount_range
      (mkConfig (list_to_map [("home", homeAccount); ("spare", spareAccount)]))
      [("home", homeAccount); ("spare", spareAccount)]
      [("spare", spareAccount); ("home", homeAccount)]
    = Err NoDefaultAmbiguous
  ∧ Config_DefaultAccount_range
      (mkConfig (list_to_map [("home", homeAccount)]))
      [("home", homeAccount)] [("home", homeAccount)]
    = Ok (homeAccount, "home").
Proof. by split_and!. Qed.


(** ** Strings *)

Lemma append_String (c : ascii) (s t : string) :
  String c s +:+ t = String c (s +:+ t).
Proof. reflexivity. Qed.

Lemma append_empty_l (t : string) : "" +:+ t = t.
Proof. reflexivity. Qed.

Lemma sep_append (c : ascii) (t : string) : String c "" +:+ t = String c t.
Proof. reflexivity. Qed.

Lemma append_empty_r (s : string) : s +:+ "" = s.
Proof. induction s as [|c s IH]; [done|]. by rewrite append_String, IH. Qed.

Lemma append_assoc (s t u : string) : (s +:+ t) +:+ u = s +:+ t +:+ u.
Proof. induction s as [|c s IH]; [done|]. by rewrite !append_String, IH. Qed.

Lemma eqb_true_iff (s t : string) : String.eqb s t = true ↔ s = t.
Proof. apply String.eqb_eq. Qed.

Lemma eqb_false_iff (s t : string) : String.eqb s t = false ↔ s ≠ t.
Proof. apply String.eqb_neq. Qed.

Lemma prefix_empty (s : string) : String.prefix "" s = true.
Proof. by destruct s. Qed.

Lemma prefix_String (a b : ascii) (s t : string) :
  String.prefix (String a s) (String b t)
  = if decide (a = b) then String.prefix s t else false.
Proof. simpl. destruct (ascii_dec a b); by case_decide. Qed.

Lemma prefix_iff (p s : string) :
  String.prefix p s = true ↔ ∃ t, s = p +:+ t.
Proof.
  revert s. induction p as [|a p IH]; intros s.
  - rewrite prefix_empty. split; [eauto|done].
  - destruct s as [|b s].
    + split; [done|]. by intros [t ?].
    + rewrite prefix_String. case_decide as Hab.
      * subst b. rewrite IH. split; intros [t Ht]; exists t.
        -- by rewrite append_String, Ht.
        -- rewrite append_String in Ht. by simplify_eq.
      * split; [done|]. intros [t Ht]. rewrite append_String in Ht. by simplify_eq.
Qed.

Lemma prefix_refl (s : string) : String.prefix s s = true.
Proof. apply prefix_iff. exists "". by rewrite append_empty_r. Qed.

Lemma prefix_append (s t : string) : String.prefix s (s +:+ t) = true.
Proof. apply prefix_iff. eauto. Qed.

Lemma prefix_trans (p q s : string) :
  String.prefix p q = true → String.prefix q s = true → String.prefix p s = true.
Proof.
  rewrite !prefix_iff. intros [t ->] [u ->]. exists (t +:+ u).
  by rewrite append_assoc.
Qed.

Lemma Contains_String (a : ascii) (s substr : string) :
  strings.Contains (String a s) substr
  = String.prefix substr (String a s) || strings.Contains s substr.
Proof. reflexivity. Qed.

Lemma Contains_byte (s : string) (c : ascii) :
  strings.Contains s (String c "") = true ↔ occurs c s.
Proof.
  induction s as [|a s IH].
  - simpl. split; [done|tauto].
  - rewrite Contains_String, prefix_String, prefix_empty. simpl occurs.
    case_decide as Hac.
    + subst. simpl. tauto.
    + simpl. rewrite IH. split; [tauto|]. intros [?|?]; congruence.
Qed.

Lemma Contains_byte_false (s : string) (c : ascii) :
  strings.Contains s (String c "") = false ↔ ¬ occurs c s.
Proof. rewrite <-Contains_byte. by destruct (strings.Contains _ _). Qed.

Lemma occurs_append (c : ascii) (s t : string) :
  occurs c (s +:+ t) ↔ occurs c s ∨ occurs c t.
Proof.
  induction s as [|a s IH]; [simpl; tauto|].
  rewrite append_String. simpl. rewrite IH. tauto.
Qed.

Lemma Split_nonempty (s : string) (c : ascii) : strings.Split s c ≠ [].
Proof.
  destruct s as [|a s]; simpl; [done|].
  destruct (Ascii.eqb a c); [done|]. by destruct (strings.Split s c).
Qed.

Lemma Split_length_pos (s : string) (c : ascii) : 0 < length (strings.Split s c).
Proof.
  pose proof (Split_nonempty s c). destruct (strings.Split s c); simpl; [done|lia].
Qed.

Lemma Split_no_sep (s : string) (c : ascii) (x : string) :
  x ∈ strings.Split s c → ¬ occurs c x.
Proof.
  revert x. induction s as [|a s IH]; intros x; simpl.
  - rewrite list_elem_of_singleton. intros ->. simpl. tauto.
  - destruct (Ascii.eqb_spec a c) as [Hac|Hac]; [subst a|].
    + rewrite elem_of_cons. intros [->|?]; [simpl; tauto|by apply IH].
    + pose proof (Split_nonempty s c) as Hne.
      destruct (strings.Split s c) as [|hd tl]; [done|].
      rewrite elem_of_cons. intros [->|Hx].
      * simpl. intros [?|Hocc]; [done|]. revert Hocc. apply IH. by left.
      * apply IH. by right.
Qed.

Lemma Split_no_occurrence (s : string) (c : ascii) :
  ¬ occurs c s → strings.Split s c = [s].
Proof.
  induction s as [|a s IH]; simpl; [done|]. intros Hocc.
  destruct (Ascii.eqb_spec a c) as [Hac|Hac]; [subst a|]; [tauto|].
  rewrite IH; [done|tauto].
Qed.

Lemma Split_append_sep (s t : string) (c : ascii) :
  strings.Split (s +:+ String c t) c = strings.Split s c ++ strings.Split t c.
Proof.
  induction s as [|a s IH].
  - rewrite append_empty_l. simpl. by rewrite Ascii.eqb_refl.
  - rewrite append_String. simpl. rewrite IH.
    destruct (Ascii.eqb a c); [done|].
    pose proof (Split_nonempty s c). by destruct (strings.Split s c).
Qed.

Lemma Join_cons (e : string) (rest : list string) (sep : string) :
  rest ≠ [] → strings.Join (e :: rest) sep = e +:+ sep +:+ strings.Join rest sep.
Proof. by destruct rest. Qed.

Lemma Join_Split (s : string) (c : ascii) :
  strings.Join (strings.Split s c) (String c "") = s.
Proof.
  induction s as [|a s IH]; simpl strings.Split; [done|].
  pose proof (Split_nonempty s c) as Hne.
  destruct (Ascii.eqb_spec a c) as [Hac|Hac]; [subst a|].
  - rewrite Join_cons by done. by rewrite IH.
  - destruct (strings.Split s c) as [|hd tl]; [done|].
    destruct tl as [|hd' tl].
    + simpl in *. by rewrite IH.
    + rewrite Join_cons by done. rewrite Join_cons in IH by done.
      by rewrite append_String, IH.
Qed.

Lemma Split_Join (l : list string) (c : ascii) :
  l ≠ [] → (∀ x, x ∈ l → ¬ occurs c x) →
  strings.Split (strings.Join l (String c "")) c = l.
Proof.
  induction l as [|e rest IH]; [done|]. intros _ Hl.
  destruct rest as [|e' rest].
  - simpl. apply Split_no_occurrence, Hl. by left.
  - rewrite Join_cons by done.
    rewrite sep_append, Split_append_sep, IH; [|done|].
    + rewrite Split_no_occurrence; [done|]. apply Hl. by left.
    + intros x Hx. apply Hl. by right.
Qed.

Lemma Join_app (l1 l2 : list string) (sep : string) :
  l1 ≠ [] → l2 ≠ [] →
  strings.Join (l1 ++ l2) sep = strings.Join l1 sep +:+ sep +:+ strings.Join l2 sep.
Proof.
  induction l1 as [|e l1 IH]; [done|]. intros _ Hl2.
  destruct l1 as [|e' l1].
  - simpl app. by rewrite Join_cons.
  - rewrite <-app_comm_cons. rewrite Join_cons by done.
    rewrite IH by done. rewrite (Join_cons e) by done.
    by rewrite !append_assoc.
Qed.

(** ** The parser *)

Lemma value_nested_ind (P : value → Prop) :
  (∀ s, P (VString s)) → (∀ b, P (VBool b)) → P VOther →
  (∀ items, P (VArray items)) →
  (∀ entries, Forall (λ kv, P kv.2) entries → P (VMap entries)) →
  ∀ v, P v.
Proof.
  intros HS HB HO HA HM. fix IH 1.
  intros [s|b| |items|entries];
    [apply HS|apply HB|apply HO|apply HA|apply HM].
  induction entries as [|[k v] entries IHe]; constructor; [apply IH|apply IHe].
Qed.

Lemma parseEntry_VMap (prefix key : string) (v : list (string * value))
    (repos : gmap string (list Repo)) :
  parseEntry prefix key (VMap v) repos
  = parseReposRecursive v
      (if String.eqb prefix "" then key else prefix +:+ "." +:+ key) repos.
Proof. reflexivity. Qed.

Lemma parseEntry_VArray (prefix key : string) (v : list value)
    (repos : gmap string (list Repo)) :
  parseEntry prefix key (VArray v) repos
  = <[(if String.eqb key "/" then prefix
       else if String.eqb prefix "" then key else prefix +:+ "." +:+ key)
      := repoListOf v]> repos.
Proof. reflexivity. Qed.

Lemma plainKey_no_dot (key : string) : plainKey key = true → ¬ occurs "." key.
Proof.
  unfold plainKey. rewrite negb_true_iff. apply Contains_byte_false.
Qed.

Lemma segments_plainKey (key : string) : plainKey key = true → segments key = [key].
Proof. intros Hk. by apply Split_no_occurrence, plainKey_no_dot. Qed.

Lemma segments_child (prefix key : string) :
  plainKey key = true →
  segments (prefix +:+ "." +:+ key) = segments prefix ++ [key].
Proof.
  intros Hk. unfold segments. rewrite sep_append, Split_append_sep.
  by rewrite (Split_no_occurrence key) by by apply plainKey_no_dot.
Qed.

Lemma currentPath_no_slash (prefix key : string) :
  plainKey key = true → key ≠ "/" → ¬ hasSlashSegment prefix →
  ¬ hasSlashSegment (if String.eqb prefix "" then key else prefix +:+ "." +:+ key).
Proof.
  intros Hk Hkey Hprefix. unfold hasSlashSegment in *.
  destruct (String.eqb prefix "").
  - rewrite segments_plainKey by done. rewrite list_elem_of_singleton. congruence.
  - rewrite segments_child by done. rewrite elem_of_app, list_elem_of_singleton.
    intros [?|?]; [done|congruence].
Qed.

Lemma empty_no_slash : ¬ hasSlashSegment "".
Proof.
  unfold hasSlashSegment, segments. simpl.
  rewrite list_elem_of_singleton. congruence.
Qed.

Lemma parseEntry_no_slash (v : value) :
  ∀ prefix key repos,
    plainKey key = true → plainValue key v = true →
    ¬ hasSlashSegment prefix →
    (∀ K, K ∈ dom repos → ¬ hasSlashSegment K) →
    ∀ K, K ∈ dom (parseEntry prefix key v repos) → ¬ hasSlashSegment K.
Proof.
  induction v as [s|b| |items|entries IH] using value_nested_ind;
    intros prefix key repos Hk Hv Hprefix Hrepos; try exact Hrepos.
  - rewrite parseEntry_VArray. intros K. rewrite dom_insert_L, elem_of_union.
    rewrite elem_of_singleton. intros [->|HK]; [|by apply Hrepos].
    destruct (String.eqb_spec key "/") as [->|Hkey]; [done|].
    by apply currentPath_no_slash.
  - rewrite parseEntry_VMap. simpl in Hv.
    apply andb_true_iff in Hv as [Hkey Hentries].
    apply negb_true_iff, eqb_false_iff in Hkey.
    pose proof (currentPath_no_slash prefix key Hk Hkey Hprefix) as Hcur.
    revert Hcur. generalize (if String.eqb prefix "" then key else prefix +:+ "." +:+ key).
    intros cur Hcur. unfold parseReposRecursive.
    revert repos Hrepos.
    induction entries as [|[k x] entries IHe]; intros repos Hrepos; [exact Hrepos|].
    simpl in Hentries. apply andb_true_iff in Hentries as [Hkx Hentries].
    apply andb_true_iff in Hkx as [Hk' Hx].
    inversion IH as [|?? IHx IHrest]; subst. simpl.
    apply IHe; [done..|]. by apply IHx.
Qed.

Lemma parseReposRecursive_no_slash (data : list (string * value)) :
  ∀ prefix repos,
    plainTree data = true → ¬ hasSlashSegment prefix →
    (∀ K, K ∈ dom repos → ¬ hasSlashSegment K) →
    ∀ K, K ∈ dom (parseReposRecursive data prefix repos) → ¬ hasSlashSegment K.
Proof.
  unfold parseReposRecursive, plainTree.
  induction data as [|[k x] data IH]; intros prefix repos Hdata Hprefix Hrepos;
    [exact Hrepos|].
  simpl in Hdata. apply andb_true_iff in Hdata as [Hkx Hdata].
  apply andb_true_iff in Hkx as [Hk Hx]. simpl.
  apply IH; [done..|]. by apply parseEntry_no_slash.
Qed.

Lemma loadAccounts_lookup (accountsRaw : list (string * value)) (name : string) (a : Account) :
  loadAccounts accountsRaw !! name = Some a →
  ∃ accountMap, (name, VMap accountMap) ∈ accountsRaw ∧ a = parseAccount accountMap.
Proof.
  unfold loadAccounts.
  assert (∀ accounts : gmap string Account,
    foldl (λ accounts kv,
             match kv.2 with
             | VMap accountMap => <[kv.1 := parseAccount accountMap]> accounts
             | _ => accounts
             end) accounts accountsRaw !! name = Some a →
    accounts !! name = Some a
    ∨ ∃ accountMap, (name, VMap accountMap) ∈ accountsRaw ∧ a = parseAccount accountMap)
    as Hgen.
  { induction accountsRaw as [|[k x] rest IH]; intros accounts; simpl; [by left|].
    intros Hlook. apply IH in Hlook as [Hlook|(accountMap & Hin & ->)].
    - destruct x as [| | | |accountMap]; try by left.
      destruct (decide (k = name)) as [->|Hne].
      + rewrite lookup_insert_eq in Hlook. simplify_eq. right.
        exists accountMap. split; [by left|done].
      + rewrite lookup_insert_ne in Hlook by done. by left.
    - right. exists accountMap. split; [by right|done]. }
  intros Hlook. apply Hgen in Hlook as [Hlook|?]; [|done].
  by rewrite lookup_empty in Hlook.
Qed.

(** C1, as stated, fails: a table stored under the marker ["/"] is
    descended into with the marker appended to the prefix, so
    [repos.a."/".b] produces the key ["a./.b"]. *)
Lemma parse_marker_table_keeps_slash :
  ¬ (∀ data K, K ∈ dom (parseReposRecursive data "" ∅) → ¬ hasSlashSegment K).
Proof.
  intros Hall. apply (Hall markerTableTree "a./.b").
  - apply elem_of_dom. vm_compute. eauto.
  - unfold hasSlashSegment. vm_compute. apply list_elem_of_In. simpl. tauto.
Qed.

(** C1, amended: for a decoded tree whose keys are single segments and in
    which the marker ["/"] never holds a nested table, no key of the
    flattened map has a ["/"] segment; a repo array under the key ["/"] is
    stored at the prefix itself; the same holds for the [Repos] of every
    account of a loaded configuration; and the round-trip example yields
    ["a"] holding [u2] and ["a.b"] holding [u1], whatever the order in
    which the table is visited. *)
Theorem parse_keys_have_no_marker (data : list (string * value)) :
  plainTree data = true →
  (∀ K, K ∈ dom (parseReposRecursive data "" ∅) → ¬ hasSlashSegment K)
  ∧ (∀ prefix items repos,
       parseReposRecursive [("/", VArray items)] prefix repos
       = <[prefix := repoListOf items]> repos)
  ∧ (∀ home join raw order inner c name a,
       plainConfig raw →
       LoadFromPath_range home join raw order inner = Ok c →
       Accounts c !! name = Some a →
       ∀ K, K ∈ dom (Repos a) → ¬ hasSlashSegment K)
  ∧ (∀ tree, tree = roundTripTree ∨ tree = roundTripTree' →
       parseReposRecursive tree "" ∅
       = {[ "a" := [mkRepo "u2" ""]; "a.b" := [mkRepo "u1" ""] ]}).
Proof.
  intros Hdata. split_and!.
  - apply parseReposRecursive_no_slash; [done| |].
    + apply empty_no_slash.
    + intros K. by rewrite dom_empty_L, elem_of_empty.
  - reflexivity.
  - intros home join raw order inner c name a Hraw Hload Hlook.
    unfold LoadFromPath_range in Hload.
    destruct (mapIndex "accounts" raw) as [[| | | |accountsRaw]|] eqn:Hacc; try done.
    destruct (Config_Validate_range _ _ _ _); simplify_eq. simpl in Hlook.
    apply loadAccounts_lookup in Hlook as (accountMap & Hin & ->).
    unfold parseAccount. simpl.
    destruct (mapIndex "repos" accountMap) as [[| | | |reposRaw]|] eqn:Hrepos;
      try (intros K; by rewrite dom_empty_L, elem_of_empty).
    apply parseReposRecursive_no_slash.
    + by eapply Hraw.
    + apply empty_no_slash.
    + intros K. by rewrite dom_empty_L, elem_of_empty.
  - intros tree [->| ->]; by vm_compute.
Qed.

Lemma parse_keys_have_no_marker_witness :
  plainTree roundTripTree = true
  ∧ ∀ K, K ∈ dom (parseReposRecursive roundTripTree "" ∅) → ¬ hasSlashSegment K.
Proof.
  split; [reflexivity|].
  apply (parse_keys_have_no_marker roundTripTree). reflexivity.
Defined.

(** ** Visiting orders *)

Lemma range_order_elem {V} (m : gmap string V) (order : list (string * V)) k v :
  range_order m order → (k, v) ∈ order ↔ m !! k = Some v.
Proof. unfold range_order. intros ->. apply elem_of_map_to_list. Qed.

Lemma range_order_NoDup {V} (m : gmap string V) (order : list (string * V)) :
  range_order m order → NoDup order.*1.
Proof. unfold range_order. intros ->. apply NoDup_fst_map_to_list. Qed.

Lemma range_order_length {V} (m : gmap string V) (order : list (string * V)) :
  range_order m order → length order = size m.
Proof. unfold range_order. intros ->. apply length_map_to_list. Qed.

Lemma range_order_list_to_map {V} (l : list (string * V)) :
  NoDup l.*1 → range_order (list_to_map l) l.
Proof. intros Hl. unfold range_order. symmetry. by apply map_to_list_to_map. Qed.

Lemma range_order_exists {V} (m : gmap string V) : range_order m (map_to_list m).
Proof. by unfold range_order. Qed.

Lemma range_order_two {V} (k1 k2 : string) (v1 v2 : V) (order : list (string * V)) :
  k1 ≠ k2 →
  range_order (list_to_map [(k1, v1); (k2, v2)]) order →
  order = [(k1, v1); (k2, v2)] ∨ order = [(k2, v2); (k1, v1)].
Proof.
  intros Hne Horder. unfold range_order in Horder.
  rewrite map_to_list_to_map in Horder.
  - symmetry in Horder. by apply Permutation.Permutation_length_2_inv in Horder.
  - simpl. apply NoDup_cons. split; [|apply NoDup_singleton].
    rewrite list_elem_of_singleton. done.
Qed.

Lemma filterOrder_range : range_order (Repos filterAccount) filterOrder.
Proof. apply range_order_list_to_map. compute_done. Qed.

Lemma filterOrder'_range : range_order (Repos filterAccount) filterOrder'.
Proof.
  pose proof filterOrder_range as H. unfold range_order in *.
  rewrite <-H. apply perm_swap.
Qed.

Lemma range_order_one {V} (k : string) (v : V) (order : list (string * V)) :
  range_order (list_to_map [(k, v)]) order → order = [(k, v)].
Proof.
  unfold range_order. rewrite map_to_list_to_map.
  - intros H. symmetry in H. by apply Permutation_singleton_l in H.
  - simpl. apply NoDup_singleton.
Qed.

(** ** [GetRepos] as a comprehension *)

Section GetRepos.

Variable UserHomeDir : string.
Variable filepath_Join : list string → string.

Local Abbreviation appendRepos := (appendRepos filepath_Join).
Local Abbreviation resolved := (resolved UserHomeDir filepath_Join).
Local Abbreviation GetRepos_range := (Account_GetRepos_range UserHomeDir filepath_Join).

Lemma appendRepos_bind rootPath path dirPath pathFilter repos result :
  appendRepos rootPath path dirPath pathFilter repos result
  = result ++ (repos ≫= λ repo,
      if repoSkipped path (resolvedName repo) pathFilter then []
      else [resolveRepo filepath_Join rootPath path dirPath repo]).
Proof.
  unfold appendRepos. revert result.
  induction repos as [|repo repos IH]; intros result; simpl.
  - by rewrite app_nil_r.
  - rewrite IH. destruct (repoSkipped _ _ _); [done|]. by rewrite <-app_assoc.
Qed.

Lemma GetRepos_loop_bind a order pathFilter result :
  foldl (λ result kv,
           if pathSkipped kv.1 pathFilter then result
           else appendRepos (ExpandPath UserHomeDir filepath_Join (Root a)) kv.1
                  (strings.ReplaceAll kv.1 "." filepath.Separator)
                  pathFilter kv.2 result)
        result order
  = result ++ (order ≫= λ kv,
      if pathSkipped kv.1 pathFilter then []
      else kv.2 ≫= λ repo,
        if repoSkipped kv.1 (resolvedName repo) pathFilter then []
        else [resolved a kv.1 repo]).
Proof.
  revert result.
  induction order as [|[path repos] order IH]; intros result; simpl.
  - by rewrite app_nil_r.
  - rewrite IH. destruct (pathSkipped path pathFilter); [done|].
    by rewrite appendRepos_bind, <-app_assoc.
Qed.

Lemma GetRepos_range_bind a order pathFilter :
  GetRepos_range a order pathFilter
  = order ≫= λ kv,
      if pathSkipped kv.1 pathFilter then []
      else kv.2 ≫= λ repo,
        if repoSkipped kv.1 (resolvedName repo) pathFilter then []
        else [resolved a kv.1 repo].
Proof. unfold Account_GetRepos_range. by rewrite GetRepos_loop_bind. Qed.

Lemma GetRepos_range_elem a order pathFilter rp :
  rp ∈ GetRepos_range a order pathFilter
  ↔ ∃ path repos repo,
      (path, repos) ∈ order ∧ repo ∈ repos
      ∧ pathSkipped path pathFilter = false
      ∧ repoSkipped path (resolvedName repo) pathFilter = false
      ∧ rp = resolved a path repo.
Proof.
  rewrite GetRepos_range_bind, list_elem_of_bind. split.
  - intros ([path repos] & Hrp & Hin). simpl in Hrp.
    destruct (pathSkipped path pathFilter) eqn:Hpath; [by apply elem_of_nil in Hrp|].
    apply list_elem_of_bind in Hrp as (repo & Hrp & Hrepo).
    destruct (repoSkipped _ _ _) eqn:Hskip; [by apply elem_of_nil in Hrp|].
    apply list_elem_of_singleton in Hrp. by exists path, repos, repo.
  - intros (path & repos & repo & Hin & Hrepo & Hpath & Hskip & ->).
    exists (path, repos). split; [|done]. simpl. rewrite Hpath.
    apply list_elem_of_bind. exists repo. split; [|done].
    rewrite Hskip. by apply list_elem_of_singleton.
Qed.

Lemma resolved_inj a path path' repo repo' :
  resolved a path repo = resolved a path' repo' → path = path' ∧ repo = repo'.
Proof. unfold resolved, resolveRepo. intros H. by simplify_eq. Qed.

(** A repo stored at [path] is in the result exactly when neither the
    path test nor the repo test skips it. *)
Lemma GetRepos_range_kept a order pathFilter path repos repo :
  range_order (Repos a) order →
  Repos a !! path = Some repos → repo ∈ repos →
  resolved a path repo ∈ GetRepos_range a order pathFilter
  ↔ pathSkipped path pathFilter = false
    ∧ repoSkipped path (resolvedName repo) pathFilter = false.
Proof.
  intros Horder Hlook Hrepo. rewrite GetRepos_range_elem. split.
  - intros (path' & repos' & repo' & _ & _ & Hpath & Hskip & Heq).
    apply resolved_inj in Heq as [-> ->]. done.
  - intros [Hpath Hskip]. exists path, repos, repo.
    split_and!; try done. by apply (range_order_elem (Repos a)).
Qed.

Lemma GetRepos_range_perm a order1 order2 pathFilter :
  order1 ≡ₚ order2 →
  GetRepos_range a order1 pathFilter ≡ₚ GetRepos_range a order2 pathFilter.
Proof. intros Hperm. rewrite !GetRepos_range_bind. by rewrite Hperm. Qed.

End GetRepos.

(** ** The path resolver *)

Lemma pathSkipped_false (path pathFilter : string) :
  pathFilter ≠ "" →
  pathSkipped path pathFilter = false
  ↔ strings.HasPrefix path pathFilter = true ∨ strings.HasPrefix pathFilter path = true.
Proof.
  intros Hne%eqb_false_iff. unfold pathSkipped. rewrite Hne. simpl.
  destruct (strings.HasPrefix path pathFilter), (strings.HasPrefix pathFilter path);
    simpl; intuition congruence.
Qed.

Lemma repoSkipped_no_dot (path name pathFilter : string) :
  strings.Contains pathFilter "." = false → repoSkipped path name pathFilter = false.
Proof. intros H. unfold repoSkipped. rewrite H. by rewrite andb_false_r. Qed.

Lemma repoSkipped_prefix (path name pathFilter : string) :
  strings.HasPrefix (path +:+ "." +:+ name) pathFilter = true →
  repoSkipped path name pathFilter = false.
Proof.
  intros H. unfold repoSkipped. rewrite H. simpl.
  by destruct (negb (String.eqb pathFilter "") && strings.Contains pathFilter ".").
Qed.

(** C3 on the code: for the account of the filter example, the filter
    ["work.backend.api"] returns both [api] and [worker] of
    [work.backend]: the filter is exactly one segment deeper than the key,
    and the test of line 263 only skips a repo when it is deeper than
    that.  The claim that exactly the repo [api] is returned fails. *)
Theorem GetRepos_single_repo_filter_returns_siblings home join order :
  range_order (Repos filterAccount) order →
  Account_GetRepos_range home join filterAccount order "work.backend.api"
  = [resolved home join filterAccount "work.backend" apiRepo;
     resolved home join filterAccount "work.backend" workerRepo]
  ∧ resolvedName apiRepo = "api" ∧ resolvedName workerRepo = "worker".
Proof.
  intros Horder. apply range_order_two in Horder; [|done].
  destruct Horder as [-> | ->]; (split; [by vm_compute|done]).
Qed.

Lemma GetRepos_single_repo_filter_returns_siblings_witness :
  length (Account_GetRepos_range "/home/u" joinWithSlash filterAccount filterOrder
            "work.backend.api") = 2.
Proof.
  destruct (GetRepos_single_repo_filter_returns_siblings "/home/u" joinWithSlash
              filterOrder filterOrder_range) as [-> _].
  reflexivity.
Defined.

(** C7: when the filter matches no key of [Repos] in either prefix
    direction, [GetRepos] returns the empty list; its result is a list,
    there is no error value to return. *)
Theorem GetRepos_no_match_is_empty home join (a : Account) order pathFilter :
  range_order (Repos a) order →
  (∀ path, path ∈ dom (Repos a) →
     strings.HasPrefix path pathFilter = false
     ∧ strings.HasPrefix pathFilter path = false) →
  Account_GetRepos_range home join a order pathFilter = []
  ∧ ∀ res, Account_GetRepos home join a pathFilter res → res = [].
Proof.
  assert (∀ order', range_order (Repos a) order' →
    (∀ path, path ∈ dom (Repos a) →
       strings.HasPrefix path pathFilter = false
       ∧ strings.HasPrefix pathFilter path = false) →
    Account_GetRepos_range home join a order' pathFilter = []) as Hgen.
  { intros order' Horder Hno. apply elem_of_nil_inv. intros rp.
    rewrite GetRepos_range_elem.
    intros (path & repos & repo & Hin & _ & Hpath & _).
    apply (range_order_elem (Repos a)) in Hin; [|done].
    destruct (Hno path) as [H1 H2]; [apply elem_of_dom; eauto|].
    unfold pathSkipped in Hpath. rewrite H1, H2, andb_true_r in Hpath.
    apply negb_false_iff, eqb_true_iff in Hpath. subst pathFilter.
    unfold strings.HasPrefix in H1. by rewrite prefix_empty in H1. }
  intros Horder Hno. split; [by apply Hgen|].
  intros res (order' & Horder' & ->). by apply Hgen.
Qed.

Lemma GetRepos_no_match_is_empty_witness :
  Account_GetRepos_range "/home/u" joinWithSlash filterAccount filterOrder
    "nonexistent" = [].
Proof.
  apply (GetRepos_no_match_is_empty "/home/u" joinWithSlash filterAccount).
  - exact filterOrder_range.
  - intros path Hpath. unfold filterAccount in Hpath. simpl in Hpath.
    rewrite !dom_insert_L, dom_empty_L in Hpath.
    apply elem_of_union in Hpath as [Hpath|Hpath].
    + apply elem_of_singleton in Hpath as ->. by vm_compute.
    + apply elem_of_union in Hpath as [Hpath|Hpath].
      * apply elem_of_singleton in Hpath as ->. by vm_compute.
      * by apply elem_of_empty in Hpath.
Defined.

(** C10: the path-level test of [GetRepos] is a raw string-prefix test.
    For a non-empty filter only the repos of keys that extend the filter,
    or that the filter extends, as strings are returned; a key passes the
    test exactly when one of the two is a string prefix of the other; every
    repo of a key that extends the filter is returned; and for the key
    ["workshop"] the filter ["work"] returns the repo stored there,
    although ["work"] is not a segment prefix of ["workshop"]. *)
Theorem GetRepos_path_test_is_string_prefix home join (a : Account) order pathFilter :
  range_order (Repos a) order → pathFilter ≠ "" →
  (∀ path, pathSkipped path pathFilter = false
           ↔ strings.HasPrefix path pathFilter = true
             ∨ strings.HasPrefix pathFilter path = true)
  ∧ (∀ rp, rp ∈ Account_GetRepos_range home join a order pathFilter →
       strings.HasPrefix (rwpPath rp) pathFilter = true
       ∨ strings.HasPrefix pathFilter (rwpPath rp) = true)
  ∧ (∀ path repos repo,
       Repos a !! path = Some repos → repo ∈ repos →
       strings.HasPrefix path pathFilter = true →
       resolved home join a path repo
       ∈ Account_GetRepos_range home join a order pathFilter)
  ∧ (∀ order', range_order (Repos workshopAccount) order' →
       Account_GetRepos_range home join workshopAccount order' "work"
       = [resolved home join workshopAccount "workshop" slidesRepo])
  ∧ ¬ segments "work" `prefix_of` segments "workshop".
Proof.
  intros Horder Hne. split_and!.
  - intros path. by apply pathSkipped_false.
  - intros rp (path & repos & repo & _ & _ & Hpath & _ & ->)%GetRepos_range_elem.
    simpl. by apply pathSkipped_false.
  - intros path repos repo Hlook Hrepo Hprefix.
    apply GetRepos_range_kept with (repos := repos); [done..|]. split.
    + apply pathSkipped_false; auto.
    + apply repoSkipped_prefix. unfold strings.HasPrefix in *.
      eapply prefix_trans; [exact Hprefix|]. apply prefix_append.
  - intros order' ->%range_order_one. by vm_compute.
  - intros [k Hk]. vm_compute in Hk. discriminate.
Qed.

Lemma GetRepos_path_test_is_string_prefix_witness :
  Account_GetRepos_range "/home/u" joinWithSlash workshopAccount
    [("workshop", [slidesRepo])] "work"
  = [resolved "/home/u" joinWithSlash workshopAccount "workshop" slidesRepo].
Proof.
  assert (range_order (Repos workshopAccount) [("workshop", [slidesRepo])]) as Horder.
  { apply range_order_list_to_map. compute_done. }
  assert ("work" ≠ "") as Hne by discriminate.
  destruct (GetRepos_path_test_is_string_prefix "/home/u" joinWithSlash
              workshopAccount _ "work" Horder Hne) as (_ & _ & _ & Hex & _).
  by apply Hex.
Defined.

Lemma occurs_Split_length (s : string) (c : ascii) :
  occurs c s → 2 ≤ length (strings.Split s c).
Proof.
  induction s as [|a s IH]; simpl; [done|].
  pose proof (Split_length_pos s c) as Hpos.
  destruct (Ascii.eqb_spec a c) as [Hac|Hac].
  - intros _. simpl. lia.
  - intros [?|Hocc]; [done|]. specialize (IH Hocc).
    destruct (strings.Split s c); simpl in *; lia.
Qed.

Lemma Join_take_last (parts : list string) (sep : string) :
  2 ≤ length parts →
  strings.Join (take (length parts - 1) parts) sep
    +:+ sep +:+ default "" (parts !! (length parts - 1))
  = strings.Join parts sep.
Proof.
  intros Hlen.
  destruct (parts !! (length parts - 1)) as [x|] eqn:Hlast.
  - simpl. rewrite <-(take_drop (length parts - 1) parts) at 3.
    assert (drop (length parts - 1) parts = [x]) as ->.
    { apply list_eq. intros i. rewrite lookup_drop. destruct i as [|i]; simpl.
      - by rewrite Nat.add_0_r.
      - apply lookup_ge_None_2. lia. }
    rewrite Join_app; [done| |done].
    intros Hnil%(f_equal length). rewrite length_take in Hnil. simpl in Hnil. lia.
  - apply lookup_ge_None_1 in Hlast. lia.
Qed.

Lemma segments_Contains (s : string) :
  2 ≤ length (segments s) → strings.Contains s "." = true.
Proof.
  intros Hlen. destruct (strings.Contains s ".") eqn:Hdot; [done|].
  apply Contains_byte_false in Hdot. unfold segments in Hlen.
  rewrite Split_no_occurrence in Hlen by done. simpl in Hlen. lia.
Qed.

Lemma repoSkipped_deep (path name pathFilter : string) :
  length (segments path) + 1 < length (segments pathFilter) →
  repoSkipped path name pathFilter
  = negb (strings.HasPrefix (path +:+ "." +:+ name) pathFilter).
Proof.
  intros Hdeep.
  assert (strings.Contains pathFilter "." = true) as Hdot.
  { apply segments_Contains. lia. }
  unfold repoSkipped. rewrite Hdot.
  assert (pathFilter ≠ "") as Hne.
  { intros ->. by vm_compute in Hdot. }
  apply eqb_false_iff in Hne as ->. simpl.
  destruct (strings.HasPrefix (path +:+ "." +:+ name) pathFilter) eqn:Hprefix; [done|].
  simpl.
  destruct (String.eqb_spec (path +:+ "." +:+ name) pathFilter) as [Heq|Hneq].
  { rewrite Heq in Hprefix. unfold strings.HasPrefix in Hprefix.
    by rewrite prefix_refl in Hprefix. }
  simpl.
  destruct (String.eqb_spec
    (strings.Join (take (length (strings.Split pathFilter ".") - 1)
                        (strings.Split pathFilter ".")) ".") path) as [Hpath|Hpath];
  destruct (String.eqb_spec
    (default "" (strings.Split pathFilter "." !! (length (strings.Split pathFilter ".") - 1)))
    name) as [Hname|Hname]; simpl;
    try (apply Nat.ltb_lt; exact Hdeep).
  exfalso. apply Hneq. rewrite <-Hpath, <-Hname.
  rewrite Join_take_last; [apply Join_Split|].
  apply occurs_Split_length. by apply Contains_byte.
Qed.

(** C4, as stated, fails: for the key ["a"] holding the repo [b] and the
    filter ["a.b.c"], the qualified name ["a.b"] is a prefix of the filter
    and yet the repo is skipped. *)
Lemma GetRepos_skips_prefix_of_filter :
  ¬ (∀ home join (a : Account) order pathFilter path repos repo,
       range_order (Repos a) order → pathFilter ≠ "" →
       Repos a !! path = Some repos → repo ∈ repos →
       strings.HasPrefix pathFilter path = true →
       resolved home join a path repo
         ∈ Account_GetRepos_range home join a order pathFilter
       ↔ (qualifiedName path repo = pathFilter
          ∨ strings.HasPrefix pathFilter (qualifiedName path repo) = true)).
Proof.
  intros Hall.
  assert (resolved "" joinWithSlash shallowAccount "a" bRepo
          ∈ Account_GetRepos_range "" joinWithSlash shallowAccount
              [("a", [bRepo])] "a.b.c") as Hin.
  { apply (Hall "" joinWithSlash shallowAccount [("a", [bRepo])] "a.b.c" "a" [bRepo]).
    - apply range_order_list_to_map. compute_done.
    - discriminate.
    - by vm_compute.
    - by left.
    - by vm_compute.
    - right. by vm_compute. }
  vm_compute in Hin. by apply elem_of_nil in Hin.
Qed.

(** C4, amended: for a non-empty filter and a key that is a string prefix
    of it, a repo at the key is kept when the filter contains no dot, when
    the filter has no more segments than the key, and when the filter is
    equal to or a string prefix of the qualified name; when the filter is
    more than one segment deeper than the key, the repo is kept exactly
    when the filter is equal to or a string prefix of the qualified name,
    so that a repo whose qualified name diverges from the filter is
    rejected. *)
Theorem GetRepos_repo_test home join (a : Account) order pathFilter path repos repo :
  range_order (Repos a) order → pathFilter ≠ "" →
  Repos a !! path = Some repos → repo ∈ repos →
  strings.HasPrefix pathFilter path = true →
  let kept := resolved home join a path repo
                ∈ Account_GetRepos_range home join a order pathFilter in
  (strings.Contains pathFilter "." = false → kept)
  ∧ (length (segments pathFilter) ≤ length (segments path) → kept)
  ∧ (strings.HasPrefix (qualifiedName path repo) pathFilter = true → kept)
  ∧ (length (segments path) + 1 < length (segments pathFilter) →
     kept ↔ strings.HasPrefix (qualifiedName path repo) pathFilter = true).
Proof.
  intros Horder Hne Hlook Hrepo Hprefix kept. unfold kept.
  assert (pathSkipped path pathFilter = false) as Hpath.
  { apply pathSkipped_false; auto. }
  rewrite (GetRepos_range_kept _ _ _ _ _ _ _ _ Horder Hlook Hrepo).
  split_and!.
  - intros Hdot. split; [done|]. by apply repoSkipped_no_dot.
  - intros Hlen. split; [done|]. unfold repoSkipped.
    destruct (negb (String.eqb pathFilter "") && strings.Contains pathFilter "."); [|done].
    destruct (negb _ && negb _); [|done].
    destruct (negb _ || negb _); [|done].
    apply Nat.ltb_ge. unfold segments in Hlen. lia.
  - intros Hqual. split; [done|]. by apply repoSkipped_prefix.
  - intros Hdeep. rewrite repoSkipped_deep by done.
    unfold qualifiedName. rewrite negb_false_iff. tauto.
Qed.

Lemma GetRepos_repo_test_witness :
  resolved "" joinWithSlash shallowAccount "a" bRepo
    ∈ Account_GetRepos_range "" joinWithSlash shallowAccount [("a", [bRepo])] "a.b.c"
  ↔ strings.HasPrefix (qualifiedName "a" bRepo) "a.b.c" = true.
Proof.
  apply (GetRepos_repo_test "" joinWithSlash shallowAccount [("a", [bRepo])]
           "a.b.c" "a" [bRepo] bRepo).
  - apply range_order_list_to_map. compute_done.
  - discriminate.
  - reflexivity.
  - by left.
  - reflexivity.
  - vm_compute. lia.
Defined.

(** ** Two calls of [GetRepos] *)

Lemma filter_all {A} (P : A → Prop) `{∀ x, Decision (P x)} (l : list A) :
  (∀ x, x ∈ l → P x) → filter P l = l.
Proof.
  induction l as [|x l IH]; intros Hl; [done|].
  rewrite filter_cons_True by (apply Hl; by left).
  f_equal. apply IH. intros y Hy. apply Hl. by right.
Qed.

Lemma filter_none {A} (P : A → Prop) `{∀ x, Decision (P x)} (l : list A) :
  (∀ x, x ∈ l → ¬ P x) → filter P l = [].
Proof.
  induction l as [|x l IH]; intros Hl; [done|].
  rewrite filter_cons_False by (apply Hl; by left).
  apply IH. intros y Hy. apply Hl. by right.
Qed.

Lemma filter_path_bind (P : string) (f : string * list Repo → list RepoWithPath)
    (order : list (string * list Repo)) :
  (∀ kv rp, rp ∈ f kv → rwpPath rp = kv.1) →
  NoDup order.*1 →
  (∀ repos, (P, repos) ∈ order →
     filter (λ rp, rwpPath rp = P) (order ≫= f) = f (P, repos))
  ∧ (P ∉ order.*1 → filter (λ rp, rwpPath rp = P) (order ≫= f) = []).
Proof.
  intros Hf. induction order as [|kv order IH]; intros Hnodup.
  { split; [|done]. intros repos Hin. by apply elem_of_nil in Hin. }
  rewrite fmap_cons, NoDup_cons in Hnodup. destruct Hnodup as [Hkv Hnodup].
  destruct (IH Hnodup) as [IHin IHout]. rewrite bind_cons, filter_app. split.
  - intros repos [Heq|Hin]%elem_of_cons.
    + subst kv. simpl in Hkv. rewrite filter_all by (intros rp Hrp; by apply Hf in Hrp).
      rewrite IHout by done. by rewrite app_nil_r.
    + rewrite filter_none; [by rewrite (IHin repos)|].
      intros rp Hrp%Hf HP. apply Hkv. rewrite <-Hrp, HP.
      apply list_elem_of_fmap. by exists (P, repos).
  - rewrite fmap_cons, not_elem_of_cons. intros [HP Hout].
    rewrite filter_none; [by rewrite IHout|].
    intros rp Hrp%Hf. congruence.
Qed.

Lemma GetRepos_range_at_path home join (a : Account) order pathFilter (P : string) :
  range_order (Repos a) order →
  filter (λ rp, rwpPath rp = P) (Account_GetRepos_range home join a order pathFilter)
  = match Repos a !! P with
    | Some repos =>
        if pathSkipped P pathFilter then []
        else repos ≫= λ repo,
          if repoSkipped P (resolvedName repo) pathFilter then []
          else [resolved home join a P repo]
    | None => []
    end.
Proof.
  intros Horder. rewrite GetRepos_range_bind.
  pose proof (range_order_NoDup _ _ Horder) as Hnodup.
  match goal with |- filter _ (order ≫= ?f) = _ =>
    destruct (filter_path_bind P f order) as [Hin Hout]; [|done|]
  end.
  { intros [path repos] rp. simpl. destruct (pathSkipped path pathFilter).
    - by intros ?%elem_of_nil.
    - intros (repo & Hrp & _)%list_elem_of_bind.
      destruct (repoSkipped _ _ _); [by apply elem_of_nil in Hrp|].
      by apply list_elem_of_singleton in Hrp as ->. }
  destruct (Repos a !! P) as [repos|] eqn:Hlook.
  - rewrite (Hin repos); [done|]. by apply (range_order_elem (Repos a)).
  - apply Hout. intros ([path repos] & -> & Hin')%list_elem_of_fmap.
    apply (range_order_elem (Repos a)) in Hin'; [|done]. simpl in Hlook. congruence.
Qed.

(** C8, as stated, fails: the loop of [GetRepos] follows the visiting
    order of the map, and two visits of the same map may differ; for the
    account of the filter example and the empty filter the two orders give
    the repos of [work.backend] before or after the repo of [personal]. *)
Lemma GetRepos_order_depends_on_visit :
  ¬ (∀ home join (a : Account) pathFilter res1 res2,
       Account_GetRepos home join a pathFilter res1 →
       Account_GetRepos home join a pathFilter res2 →
       res1 = res2).
Proof.
  intros Hall.
  assert (Account_GetRepos_range "" joinWithSlash filterAccount filterOrder ""
          = Account_GetRepos_range "" joinWithSlash filterAccount filterOrder' "")
    as Heq.
  { apply (Hall "" joinWithSlash filterAccount "").
    - exists filterOrder. split; [exact filterOrder_range|done].
    - exists filterOrder'. split; [exact filterOrder'_range|done]. }
  vm_compute in Heq. discriminate.
Qed.

(** C8, amended: two calls of [GetRepos] on the same account and filter
    return the same resolved repos with the same multiplicities (the two
    lists are permutations of each other), and the repos of any one
    logical path come in the same order in both. *)
Theorem GetRepos_twice home join (a : Account) pathFilter res1 res2 :
  Account_GetRepos home join a pathFilter res1 →
  Account_GetRepos home join a pathFilter res2 →
  res1 ≡ₚ res2
  ∧ ∀ P, filter (λ rp, rwpPath rp = P) res1 = filter (λ rp, rwpPath rp = P) res2.
Proof.
  intros (o1 & H1 & ->) (o2 & H2 & ->). split.
  - apply GetRepos_range_perm. unfold range_order in *. by rewrite H1, H2.
  - intros P. by rewrite !GetRepos_range_at_path.
Qed.

Lemma GetRepos_twice_witness :
  Account_GetRepos_range "" joinWithSlash filterAccount filterOrder ""
  ≡ₚ Account_GetRepos_range "" joinWithSlash filterAccount filterOrder' "".
Proof.
  apply (GetRepos_twice "" joinWithSlash filterAccount "").
  - exists filterOrder. split; [exact filterOrder_range|reflexivity].
  - exists filterOrder'. split; [exact filterOrder'_range|reflexivity].
Defined.

(** ** [RepoPaths] *)

Lemma addPath_inv (p : string) st : pathsInv st → pathsInv (addPath p st).
Proof.
  intros [Hnodup Hseen]. unfold addPath. case_bool_decide as Hp; [done|].
  split; simpl.
  - apply NoDup_app. split_and!; [done| |apply NoDup_singleton].
    intros x Hx ->%list_elem_of_singleton. apply Hp. by apply Hseen.
  - intros x. rewrite elem_of_union, elem_of_singleton, elem_of_app,
      list_elem_of_singleton, Hseen. tauto.
Qed.

Lemma addPath_elem (p : string) st (x : string) :
  pathsInv st → x ∈ (addPath p st).1 ↔ x = p ∨ x ∈ st.1.
Proof.
  intros [_ Hseen]. unfold addPath. case_bool_decide as Hp; simpl.
  - split; [by right|]. intros [->|?]; [by apply Hseen|done].
  - rewrite elem_of_app, list_elem_of_singleton. tauto.
Qed.

Lemma addRepoPaths_spec (path : string) (repos : list Repo) st :
  pathsInv st →
  let st' := foldl (λ st repo, addPath (path +:+ "." +:+ resolvedName repo) st) st repos in
  pathsInv st'
  ∧ ∀ x, x ∈ st'.1 ↔ x ∈ st.1 ∨ ∃ repo, repo ∈ repos ∧ x = qualifiedName path repo.
Proof.
  revert st. induction repos as [|repo repos IH]; intros st Hinv; simpl.
  - split; [done|]. intros x. split; [by left|].
    intros [?|(repo & Hrepo & _)]; [done|]. by apply elem_of_nil in Hrepo.
  - destruct (IH (addPath (path +:+ "." +:+ resolvedName repo) st)) as [Hinv' Helem].
    { by apply addPath_inv. }
    split; [done|]. intros x. rewrite Helem, addPath_elem by done.
    split.
    + intros [[->|?]|(repo' & Hrepo' & ->)].
      * right. exists repo. split; [by left|done].
      * by left.
      * right. exists repo'. split; [by right|done].
    + intros [?|(repo' & [->|Hrepo']%elem_of_cons & ->)].
      * left. by right.
      * left. by left.
      * right. by exists repo'.
Qed.

Lemma RepoPaths_loop_spec (order : list (string * list Repo)) st :
  pathsInv st →
  let st' := foldl (λ st kv,
                      foldl (λ st repo, addPath (kv.1 +:+ "." +:+ resolvedName repo) st)
                            (addPath kv.1 st) kv.2) st order in
  pathsInv st'
  ∧ ∀ x, x ∈ st'.1 ↔
      x ∈ st.1
      ∨ ∃ path repos, (path, repos) ∈ order
          ∧ (x = path ∨ ∃ repo, repo ∈ repos ∧ x = qualifiedName path repo).
Proof.
  revert st. induction order as [|[path repos] order IH]; intros st Hinv; simpl.
  - split; [done|]. intros x. split; [by left|].
    intros [?|(path & repos & Hin & _)]; [done|]. by apply elem_of_nil in Hin.
  - destruct (addRepoPaths_spec path repos (addPath path st)) as [Hinv1 Helem1].
    { by apply addPath_inv. }
    destruct (IH _ Hinv1) as [Hinv' Helem]. split; [done|].
    intros x. rewrite Helem, Helem1, addPath_elem by done. split.
    + intros [[[->|?]|Hrepo]|(path' & repos' & Hin & Hx)].
      * right. exists path, repos. split; [by left|by left].
      * by left.
      * right. exists path, repos. split; [by left|by right].
      * right. exists path', repos'. split; [by right|done].
    + intros [?|(path' & repos' & [Heq|Hin]%elem_of_cons & Hx)].
      * left. left. by right.
      * simplify_eq. destruct Hx as [->|Hx]; [left; left; by left|left; by right].
      * right. by exists path', repos'.
Qed.

Lemma RepoPaths_range_spec (a : Account) order :
  range_order (Repos a) order →
  NoDup (Account_RepoPaths_range order)
  ∧ ∀ s, s ∈ Account_RepoPaths_range order ↔ isRepoPath a s.
Proof.
  intros Horder. unfold Account_RepoPaths_range.
  destruct (RepoPaths_loop_spec order ([], ∅)) as [[Hnodup _] Helem].
  { split; [apply NoDup_nil_2|]. intros x. simpl.
    by rewrite elem_of_empty, elem_of_nil. }
  split; [done|]. intros s. rewrite Helem. simpl. unfold isRepoPath. split.
  - intros [?%elem_of_nil|(path & repos & Hin & Hs)]; [done|].
    exists path, repos. split; [|done]. by apply (range_order_elem (Repos a)) in Hin.
  - intros (path & repos & Hlook & Hs). right. exists path, repos.
    split; [|done]. by apply (range_order_elem (Repos a)).
Qed.

(** C9, as stated, fails: [RepoPaths] lists the strings in the order in
    which it meets them and does not sort; for the key ["a"] holding [z]
    and then [b] it returns ["a"; "a.z"; "a.b"]. *)
Lemma RepoPaths_is_not_sorted :
  ¬ (∀ (a : Account) order,
       range_order (Repos a) order →
       Sorted String.le (Account_RepoPaths_range order)
       ∧ NoDup (Account_RepoPaths_range order)
       ∧ ∀ s, s ∈ Account_RepoPaths_range order ↔ isRepoPath a s).
Proof.
  intros Hall.
  destruct (Hall unsortedAccount [("a", [zRepo; bRepo])]) as [Hsorted _].
  { apply range_order_list_to_map. compute_done. }
  vm_compute in Hsorted.
  apply Sorted_inv in Hsorted as [Hsorted _].
  apply Sorted_inv in Hsorted as [_ Hle].
  apply HdRel_inv in Hle. exact Hle.
Qed.

(** C9, amended: [RepoPaths] returns a list without duplicates that
    contains exactly the keys of [Repos] and the qualified names
    [path.repoName] of its repos; the list follows the visiting order of
    the map and the order of each repo array, it is not sorted. *)
Theorem RepoPaths_lists_each_path_once (a : Account) order :
  range_order (Repos a) order →
  NoDup (Account_RepoPaths_range order)
  ∧ (∀ s, s ∈ Account_RepoPaths_range order ↔ isRepoPath a s)
  ∧ Account_RepoPaths_range [("a", [zRepo; bRepo])] = ["a"; "a.z"; "a.b"].
Proof.
  intros Horder. destruct (RepoPaths_range_spec a order Horder) as [Hnodup Helem].
  split_and!; [done|done|reflexivity].
Qed.

Lemma RepoPaths_lists_each_path_once_witness :
  NoDup (Account_RepoPaths_range [("a", [zRepo; bRepo])]).
Proof.
  apply (RepoPaths_lists_each_path_once unsortedAccount [("a", [zRepo; bRepo])]).
  apply range_order_list_to_map. compute_done.
Defined.

(** ** [DefaultAccount] *)

Lemma firstDefault_Some order account name :
  firstDefault order = Some (account, name) →
  (name, account) ∈ order ∧ Default account = true.
Proof.
  induction order as [|[name' account'] order IH]; simpl; [done|].
  destruct (Default account') eqn:Hdef.
  - intros [= -> ->]. split; [by left|done].
  - intros [Hin ?]%IH. split; [by right|done].
Qed.

Lemma firstDefault_None order :
  firstDefault order = None ↔
  ∀ name account, (name, account) ∈ order → Default account = false.
Proof.
  induction order as [|[name' account'] order IH]; simpl.
  - split; [|done]. intros _ name account Hin. by apply elem_of_nil in Hin.
  - destruct (Default account') eqn:Hdef.
    + split; [done|]. intros Hall. specialize (Hall name' account').
      rewrite Hall in Hdef; [done|by left].
    + rewrite IH. split.
      * intros Hall name account [Heq|Hin]%elem_of_cons; [by simplify_eq|eauto].
      * intros Hall name account Hin. apply (Hall name). by right.
Qed.

(** C5: [DefaultAccount] returns the account flagged default when exactly
    one is flagged; with none flagged and exactly one account it returns
    that account; with none flagged and two or more accounts it fails with
    the error "no default account configured and multiple accounts
    exist". *)
Theorem DefaultAccount_resolution (c : Config) order1 order2 :
  range_order (Accounts c) order1 → range_order (Accounts c) order2 →
  (∀ name account, onlyDefault c name account →
     Config_DefaultAccount_range c order1 order2 = Ok (account, name))
  ∧ (noneDefault c → size (Accounts c) = 1 →
     ∀ name account, Accounts c !! name = Some account →
       Config_DefaultAccount_range c order1 order2 = Ok (account, name))
  ∧ (noneDefault c → 2 ≤ size (Accounts c) →
     Config_DefaultAccount_range c order1 order2 = Err NoDefaultAmbiguous).
Proof.
  intros Horder1 Horder2. unfold Config_DefaultAccount_range. split_and!.
  - intros name account (Hlook & Hdef & Honly).
    destruct (firstDefault order1) as [[account' name']|] eqn:Hfirst.
    + apply firstDefault_Some in Hfirst as [Hin Hdef'].
      apply (range_order_elem (Accounts c)) in Hin; [|done].
      assert (name' = name) as -> by eauto. by simplify_eq.
    + rewrite firstDefault_None in Hfirst.
      rewrite (Hfirst name account) in Hdef; [done|].
      by apply (range_order_elem (Accounts c)).
  - intros Hnone Hsize name account Hlook.
    assert (firstDefault order1 = None) as ->.
    { apply firstDefault_None. intros name' account' Hin. apply (Hnone name').
      by apply (range_order_elem (Accounts c)) in Hin. }
    rewrite Hsize. simpl.
    pose proof (range_order_length _ _ Horder2) as Hlen. rewrite Hsize in Hlen.
    destruct order2 as [|[name' account'] [|? ?]]; simplify_eq/=.
    assert ((name, account) ∈ [(name', account')]) as Hin.
    { by apply (range_order_elem (Accounts c)). }
    apply list_elem_of_singleton in Hin. by simplify_eq.
  - intros Hnone Hsize.
    assert (firstDefault order1 = None) as ->.
    { apply firstDefault_None. intros name' account' Hin. apply (Hnone name').
      by apply (range_order_elem (Accounts c)) in Hin. }
    destruct (size (Accounts c) =? 1) eqn:Hone; [|done].
    apply Nat.eqb_eq in Hone. lia.
Qed.

Lemma DefaultAccount_resolution_witness :
  Config_DefaultAccount_range threeAccounts
    threeOrder
    threeOrder
  = Ok (workAccount, "work").
Proof.
  assert (range_order (Accounts threeAccounts)
    threeOrder) as Horder.
  { apply range_order_list_to_map. compute_done. }
  destruct (DefaultAccount_resolution threeAccounts _ _ Horder Horder) as [Hone _].
  apply Hone. split_and!; [reflexivity|reflexivity|].
  intros name' account' Hlook Hdef.
  apply (range_order_elem _ _ name' account' Horder) in Hlook.
  apply elem_of_cons in Hlook as [Heq|Hlook]; [by simplify_eq|].
  apply elem_of_cons in Hlook as [Heq|Hlook]; [by simplify_eq|].
  apply list_elem_of_singleton in Hlook. by simplify_eq.
Defined.

(** ** [RepoName] *)

Lemma length_append (s t : string) :
  String.length (s +:+ t) = String.length s + String.length t.
Proof. induction s as [|a s IH]; [done|]. rewrite append_String. simpl. by rewrite IH. Qed.

Lemma substring_0_length (s : string) : String.substring 0 (String.length s) s = s.
Proof. induction s as [|a s IH]; [done|]. simpl. by rewrite IH. Qed.

Lemma substring_0_append (s t : string) :
  String.substring 0 (String.length s) (s +:+ t) = s.
Proof.
  induction s as [|a s IH]; [by destruct t|].
  rewrite append_String. simpl. by rewrite IH.
Qed.

Lemma substring_skip_append (s t : string) (m : nat) :
  String.substring (String.length s) m (s +:+ t) = String.substring 0 m t.
Proof. induction s as [|a s IH]; [done|]. by rewrite append_String. Qed.

Lemma substring_split (s : string) (n : nat) :
  n ≤ String.length s →
  String.substring 0 n s +:+ String.substring n (String.length s - n) s = s.
Proof.
  revert n. induction s as [|a s IH]; intros n Hn; simpl in Hn.
  - by replace n with 0 by lia.
  - destruct n as [|n].
    + simpl. rewrite append_empty_l. by rewrite substring_0_length.
    + simpl. rewrite append_String. rewrite IH by lia. done.
Qed.

Lemma HasSuffix_iff (s suffix : string) :
  strings.HasSuffix s suffix = true ↔ ∃ stem, s = stem +:+ suffix.
Proof.
  unfold strings.HasSuffix. rewrite andb_true_iff, Nat.leb_le, eqb_true_iff. split.
  - intros [Hlen Hsub].
    exists (String.substring 0 (String.length s - String.length suffix) s).
    rewrite <-Hsub at 2.
    assert (String.length suffix
            = String.length s - (String.length s - String.length suffix)) as Hm by lia.
    set (k := String.length s - String.length suffix) in *.
    rewrite Hm. symmetry. apply substring_split. lia.
  - intros [stem ->]. rewrite length_append. split; [lia|].
    replace (String.length stem + String.length suffix - String.length suffix)
      with (String.length stem) by lia.
    by rewrite substring_skip_append, substring_0_length.
Qed.

Lemma TrimSuffix_append (stem suffix : string) :
  strings.TrimSuffix (stem +:+ suffix) suffix = stem.
Proof.
  unfold strings.TrimSuffix.
  assert (strings.HasSuffix (stem +:+ suffix) suffix = true) as ->.
  { apply HasSuffix_iff. eauto. }
  rewrite length_append.
  replace (String.length stem + String.length suffix - String.length suffix)
    with (String.length stem) by lia.
  apply substring_0_append.
Qed.

Lemma TrimSuffix_other (s suffix : string) :
  (∀ stem, s ≠ stem +:+ suffix) → strings.TrimSuffix s suffix = s.
Proof.
  intros Hno. unfold strings.TrimSuffix.
  destruct (strings.HasSuffix s suffix) eqn:Hsuf; [|done].
  apply HasSuffix_iff in Hsuf as [stem ->]. by destruct (Hno stem).
Qed.

Lemma rev_app_spec (s t : string) : String.rev_app s t = String.rev s +:+ t.
Proof.
  unfold String.rev. revert t. induction s as [|a s IH]; intros t; simpl; [done|].
  rewrite (IH (String a t)), (IH (String a "")). by rewrite append_assoc.
Qed.

Lemma rev_String (a : ascii) (s : string) :
  String.rev (String a s) = String.rev s +:+ String a "".
Proof. unfold String.rev at 1. simpl. apply rev_app_spec. Qed.

Lemma rev_append (s t : string) : String.rev (s +:+ t) = String.rev t +:+ String.rev s.
Proof.
  induction s as [|a s IH].
  - by rewrite append_empty_l, append_empty_r.
  - by rewrite append_String, !rev_String, IH, append_assoc.
Qed.

Lemma rev_involutive (s : string) : String.rev (String.rev s) = s.
Proof.
  induction s as [|a s IH]; [done|].
  by rewrite rev_String, rev_append, IH.
Qed.

Lemma occurs_rev (c : ascii) (s : string) : occurs c (String.rev s) ↔ occurs c s.
Proof.
  induction s as [|a s IH]; [done|].
  rewrite rev_String, occurs_append, IH. simpl. tauto.
Qed.

Lemma dropSeparators_append (s t : string) :
  onlySeparators s → filepath.dropSeparators (s +:+ t) = filepath.dropSeparators t.
Proof.
  induction s as [|a s IH]; intros Hs; [done|].
  rewrite append_String. simpl.
  rewrite (Hs a) by (simpl; tauto). rewrite Ascii.eqb_refl.
  apply IH. intros c Hc. apply Hs. simpl. tauto.
Qed.

Lemma dropSeparators_segment (s t : string) :
  s ≠ "" → ¬ occurs filepath.Separator s →
  filepath.dropSeparators (s +:+ t) = s +:+ t.
Proof.
  destruct s as [|a s]; [done|]. intros _ Hs. rewrite append_String. simpl.
  destruct (Ascii.eqb_spec a filepath.Separator) as [->|?]; [|done].
  destruct Hs. simpl. tauto.
Qed.

Lemma lastElement_segment (s : string) :
  ¬ occurs filepath.Separator s → filepath.lastElement s = s.
Proof.
  induction s as [|a s IH]; [done|]. simpl. intros Hs.
  destruct (Ascii.eqb_spec a filepath.Separator) as [->|?]; [tauto|].
  rewrite IH; [done|tauto].
Qed.

Lemma lastElement_append (s t : string) :
  ¬ occurs filepath.Separator s →
  filepath.lastElement (s +:+ String filepath.Separator t) = s.
Proof.
  induction s as [|a s IH]; intros Hs.
  - by rewrite append_empty_l.
  - rewrite append_String. simpl. simpl in Hs.
    destruct (Ascii.eqb_spec a filepath.Separator) as [->|?]; [tauto|].
    rewrite IH; [done|tauto].
Qed.

(** [filepath.Base] returns the last path segment of its argument. *)
Lemma Base_lastPathSegment (url seg : string) :
  lastPathSegment url seg → filepath.Base url = seg.
Proof.
  intros (Hne & Hseg & before & after & Hafter & Hurl).
  assert (onlySeparators (String.rev after)) as Hafter'.
  { intros c Hc. apply Hafter. by apply occurs_rev. }
  assert (String.rev seg ≠ "") as Hne'.
  { intros Hrev. apply Hne. by rewrite <-(rev_involutive seg), Hrev. }
  assert (¬ occurs filepath.Separator (String.rev seg)) as Hseg'.
  { by rewrite occurs_rev. }
  assert (url ≠ "") as Hurl'.
  { destruct Hurl as [-> | ->].
    - destruct seg; [done|]. by rewrite append_String.
    - destruct before; [|by rewrite append_String].
      by rewrite append_empty_l, append_String. }
  unfold filepath.Base. apply eqb_false_iff in Hurl' as ->.
  assert (filepath.lastElement (filepath.dropSeparators (String.rev url))
          = String.rev seg) as ->.
  { destruct Hurl as [-> | ->].
    - rewrite rev_append, dropSeparators_append by done.
      rewrite <-(append_empty_r (String.rev seg)) at 1.
      rewrite dropSeparators_segment, append_empty_r by done.
      by apply lastElement_segment.
    - rewrite !rev_append, !append_assoc, dropSeparators_append by done.
      rewrite dropSeparators_segment by done.
      change (String.rev (String filepath.Separator ""))
        with (String filepath.Separator "").
      rewrite sep_append. by apply lastElement_append. }
  rewrite rev_involutive. by apply eqb_false_iff in Hne as ->.
Qed.

(** C6: the resolved name of a descriptor is its explicit name when one
    is given; otherwise it is the last path segment of the URL, without
    the suffix [".git"] when the segment ends with it; the URL
    [git@github.com:org/my-repo.git] resolves to [my-repo], and the name
    [custom] wins over any URL. *)
Theorem resolvedName_explicit_or_derived (repo : Repo) :
  (Name repo ≠ "" → resolvedName repo = Name repo)
  ∧ (Name repo = "" → resolvedName repo = RepoName (URL repo))
  ∧ (∀ seg, Name repo = "" → lastPathSegment (URL repo) seg →
       (∀ stem, seg = stem +:+ ".git" → resolvedName repo = stem)
       ∧ ((∀ stem, seg ≠ stem +:+ ".git") → resolvedName repo = seg))
  ∧ resolvedName (mkRepo "git@github.com:org/my-repo.git" "") = "my-repo"
  ∧ (∀ url, resolvedName (mkRepo url "custom") = "custom").
Proof.
  unfold resolvedName. split_and!.
  - intros Hname. by apply eqb_false_iff in Hname as ->.
  - by intros ->.
  - intros seg -> Hseg. simpl. unfold RepoName.
    rewrite (Base_lastPathSegment _ _ Hseg). split.
    + intros stem ->. apply TrimSuffix_append.
    + apply TrimSuffix_other.
  - reflexivity.
  - reflexivity.
Qed.

Lemma resolvedName_explicit_or_derived_witness :
  resolvedName (mkRepo "https://example.org/team/tool.git/" "") = "tool".
Proof.
  destruct (resolvedName_explicit_or_derived
              (mkRepo "https://example.org/team/tool.git/" ""))
    as (_ & _ & Hseg & _).
  destruct (Hseg "tool.git") as [Hgit _]; [reflexivity| |by apply (Hgit "tool")].
  split_and!; [discriminate| |].
  - simpl. intros H. repeat (destruct H as [H|H]; [discriminate|]). exact H.
  - exists "https://example.org/team", "/". split.
    + intros c Hc. simpl in Hc. destruct Hc as [<-|[]]. reflexivity.
    + right. reflexivity.
Defined.

(** ** The conflict validator *)

Lemma children_addChild (p ch : string) subpaths (path c : string) :
  c ∈ children (addChild p ch subpaths) path
  ↔ (path = p ∧ c = ch) ∨ c ∈ children subpaths path.
Proof.
  unfold children, addChild. destruct (decide (p = path)) as [->|Hne].
  - rewrite lookup_insert_eq. simpl. rewrite elem_of_union, elem_of_singleton.
    intuition congruence.
  - rewrite lookup_insert_ne by done. intuition congruence.
Qed.

Lemma children_addSubpaths (key : string) subpaths (path c : string) :
  c ∈ children (addSubpaths key subpaths) path
  ↔ c ∈ children subpaths path
    ∨ ∃ i, i < length (segments key) - 1 ∧ recordsChild key i path c.
Proof.
  unfold addSubpaths. fold (segments key).
  assert (∀ (indices : list nat) subpaths,
    c ∈ children
          (foldl (λ subpaths i,
                    match segments key !! (i + 1) with
                    | Some childSegment =>
                        addChild (strings.Join (take (i + 1) (segments key)) ".")
                                 childSegment subpaths
                    | None => subpaths
                    end) subpaths indices) path
    ↔ c ∈ children subpaths path
      ∨ ∃ i, i ∈ indices ∧ recordsChild key i path c) as Hgen.
  { clear subpaths. induction indices as [|i indices IH]; intros subpaths; simpl.
    - split; [by left|]. intros [?|(i & Hi & _)]; [done|]. by apply elem_of_nil in Hi.
    - rewrite IH. unfold recordsChild.
      destruct (segments key !! (i + 1)) as [child|] eqn:Hchild.
      + rewrite children_addChild. split.
        * intros [[[-> ->]|?]|(j & Hj & ?)].
          -- right. exists i. split; [by left|done].
          -- by left.
          -- right. exists j. split; [by right|done].
        * intros [?|(j & [->|Hj]%elem_of_cons & Hjoin & Hc)].
          -- left. by right.
          -- left. left. split; [done|congruence].
          -- right. exists j. split; [done|done].
      + split.
        * intros [?|(j & Hj & ?)]; [by left|]. right. exists j. split; [by right|done].
        * intros [?|(j & [->|Hj]%elem_of_cons & Hjoin & Hc)]; [by left|congruence|].
          right. by exists j. }
  rewrite Hgen. split.
  - intros [?|(i & Hi%elem_of_seq & ?)]; [by left|]. right. exists i. split; [lia|done].
  - intros [?|(i & Hi & ?)]; [by left|]. right. exists i. split; [|done].
    apply elem_of_seq. lia.
Qed.

Lemma children_buildSubpaths (order : list (string * list Repo)) (path c : string) :
  c ∈ children (buildSubpaths order) path
  ↔ ∃ key repos i, (key, repos) ∈ order
      ∧ i < length (segments key) - 1 ∧ recordsChild key i path c.
Proof.
  unfold buildSubpaths.
  assert (∀ subpaths,
    c ∈ children (foldl (λ subpaths kv, addSubpaths kv.1 subpaths) subpaths order) path
    ↔ c ∈ children subpaths path
      ∨ ∃ key repos i, (key, repos) ∈ order
          ∧ i < length (segments key) - 1 ∧ recordsChild key i path c) as Hgen.
  { induction order as [|[key repos] order IH]; intros subpaths; simpl.
    - split; [by left|]. intros [?|(k & r & i & Hin & _)]; [done|].
      by apply elem_of_nil in Hin.
    - rewrite IH, children_addSubpaths. split.
      + intros [[?|(i & Hi & Hrec)]|(k & r & i & Hin & Hi & Hrec)].
        * by left.
        * right. exists key, repos, i. split; [by left|done].
        * right. exists k, r, i. split; [by right|done].
      + intros [?|(k & r & i & [Heq|Hin]%elem_of_cons & Hi & Hrec)].
        * left. by left.
        * simplify_eq. left. right. by exists i.
        * right. by exists k, r, i. }
  rewrite Hgen. unfold children at 1. rewrite lookup_empty. simpl.
  rewrite elem_of_empty. tauto.
Qed.

(** The index test of the code and the segment-wise reading of the
    conflict rule agree. *)
Lemma recordsChild_impliesChild (key path c : string) :
  (∃ i, i < length (segments key) - 1 ∧ recordsChild key i path c)
  ↔ impliesChild path key c.
Proof.
  unfold recordsChild, impliesChild. split.
  - intros (i & Hi & Hjoin & Hc). exists (drop (i + 2) (segments key)).
    assert (segments path = take (i + 1) (segments key)) as ->.
    { rewrite <-Hjoin. unfold segments at 1. apply Split_Join.
      - intros Hnil%(f_equal length). rewrite length_take in Hnil.
        simpl in Hnil. lia.
      - intros x Hx%elem_of_take. destruct Hx as (j & Hx & _).
        apply list_elem_of_lookup_2 in Hx. by apply Split_no_sep in Hx. }
    rewrite <-(take_drop (i + 1) (segments key)) at 1. f_equal.
    rewrite (drop_S _ c (i + 1)) by done. do 2 f_equal. lia.
  - intros (deeper & Hkey).
    pose proof (Split_length_pos path ".") as Hpos. fold (segments path) in Hpos.
    exists (length (segments path) - 1).
    replace (length (segments path) - 1 + 1) with (length (segments path)) by lia.
    rewrite Hkey. split_and!.
    + rewrite length_app. simpl. lia.
    + rewrite take_app_length. apply Join_Split.
    + by rewrite list_lookup_middle.
Qed.

Lemma findConflict_Some siblings repos repoName :
  findConflict siblings repos = Some repoName →
  ∃ repo, repo ∈ repos ∧ repoName = resolvedName repo ∧ repoName ∈ siblings.
Proof.
  induction repos as [|repo repos IH]; simpl; [done|].
  case_bool_decide as Hin.
  - intros [= <-]. exists repo. split; [by left|done].
  - intros (repo' & ? & ? & ?)%IH. exists repo'. split; [by right|done].
Qed.

Lemma findConflict_None siblings repos :
  findConflict siblings repos = None
  ↔ ∀ repo, repo ∈ repos → resolvedName repo ∉ siblings.
Proof.
  induction repos as [|repo repos IH]; simpl.
  - split; [|done]. intros _ repo Hin. by apply elem_of_nil in Hin.
  - case_bool_decide as Hin.
    + split; [done|]. intros Hall. destruct (Hall repo); [by left|done].
    + rewrite IH. split.
      * intros Hall repo' [->|?]%elem_of_cons; auto.
      * intros Hall repo' ?. apply Hall. by right.
Qed.

Section Validate.

Variable UserHomeDir : string.
Variable filepath_Join : list string → string.

Local Abbreviation checkPaths := (checkPaths UserHomeDir filepath_Join).
Local Abbreviation Validate_range := (Account_Validate_range UserHomeDir filepath_Join).
Local Abbreviation conflictError := (conflictError UserHomeDir filepath_Join).

Lemma checkPaths_Some accountName a subpaths order e :
  checkPaths accountName a subpaths order = Some e →
  ∃ path repos repo,
    (path, repos) ∈ order ∧ repo ∈ repos
    ∧ resolvedName repo ∈ children subpaths path
    ∧ e = conflictError accountName a path repo.
Proof.
  induction order as [|[path repos] order IH]; simpl; [done|].
  assert (checkPaths accountName a subpaths order = Some e →
    ∃ path0 repos0 repo, (path0, repos0) ∈ (path, repos) :: order ∧ repo ∈ repos0
      ∧ resolvedName repo ∈ children subpaths path0
      ∧ e = conflictError accountName a path0 repo) as Hrest.
  { intros (path0 & repos0 & repo & ? & ?)%IH. exists path0, repos0, repo.
    split; [by right|done]. }
  destruct (subpaths !! path) as [siblings|] eqn:Hsiblings; [|done].
  destruct (findConflict siblings repos) as [repoName|] eqn:Hfind; [|done].
  apply findConflict_Some in Hfind as (repo & Hrepo & -> & Hin).
  intros [= <-]. exists path, repos, repo. split_and!; [by left|done| |done].
  unfold children. by rewrite Hsiblings.
Qed.

Lemma checkPaths_None accountName a subpaths order :
  checkPaths accountName a subpaths order = None
  ↔ ∀ path repos repo, (path, repos) ∈ order → repo ∈ repos →
      resolvedName repo ∉ children subpaths path.
Proof.
  induction order as [|[path repos] order IH]; simpl.
  - split; [|done]. intros _ path repos repo Hin. by apply elem_of_nil in Hin.
  - assert ((∀ repo, repo ∈ repos → resolvedName repo ∉ children subpaths path) →
      (checkPaths accountName a subpaths order = None
       ↔ ∀ path0 repos0 repo, (path0, repos0) ∈ (path, repos) :: order →
           repo ∈ repos0 → resolvedName repo ∉ children subpaths path0)) as Hrest.
    { intros Hhere. rewrite IH. split.
      - intros Hall path0 repos0 repo [Heq|Hin]%elem_of_cons; [|by eauto].
        simplify_eq. apply Hhere.
      - intros Hall path0 repos0 repo Hin. apply Hall. by right. }
    destruct (subpaths !! path) as [siblings|] eqn:Hsiblings.
    + destruct (findConflict siblings repos) as [repoName|] eqn:Hfind.
      * split; [done|]. intros Hall.
        apply findConflict_Some in Hfind as (repo & Hrepo & -> & Hin).
        destruct (Hall path repos repo); [by left|done|].
        unfold children. by rewrite Hsiblings.
      * apply Hrest. rewrite findConflict_None in Hfind.
        unfold children. by rewrite Hsiblings.
    + apply Hrest. intros repo _. unfold children. rewrite Hsiblings. simpl.
      apply not_elem_of_empty.
Qed.

Lemma Validate_range_Some (a : Account) accountName order1 order2 e :
  range_order (Repos a) order1 → range_order (Repos a) order2 →
  Validate_range a accountName order1 order2 = Some e →
  ∃ path repos repo key,
    Repos a !! path = Some repos ∧ repo ∈ repos ∧ key ∈ dom (Repos a)
    ∧ impliesChild path key (resolvedName repo)
    ∧ e = conflictError accountName a path repo.
Proof.
  intros H1 H2 (path & repos & repo & Hin & Hrepo & Hchild & ->)%checkPaths_Some.
  apply children_buildSubpaths in Hchild as (key & repos' & i & Hkey & Hi & Hrec).
  exists path, repos, repo, key. split_and!; [|done| | |done].
  - by apply (range_order_elem (Repos a)) in Hin.
  - apply (range_order_elem (Repos a)) in Hkey; [|done]. apply elem_of_dom. eauto.
  - apply recordsChild_impliesChild. eauto.
Qed.

Lemma Validate_range_None (a : Account) accountName order1 order2 :
  range_order (Repos a) order1 → range_order (Repos a) order2 →
  Validate_range a accountName order1 order2 = None ↔ ¬ hasConflict a.
Proof.
  intros H1 H2. unfold Account_Validate_range. rewrite checkPaths_None. split.
  - intros Hall (path & repos & repo & key & Hlook & Hrepo & Hkey & Hchild).
    apply (Hall path repos repo); [|done|].
    + by apply (range_order_elem (Repos a)).
    + apply children_buildSubpaths.
      apply recordsChild_impliesChild in Hchild as (i & Hi & Hrec).
      apply elem_of_dom in Hkey as [repos' Hkey].
      exists key, repos', i. split; [|done]. by apply (range_order_elem (Repos a)).
  - intros Hno path repos repo Hin Hrepo Hchild. apply Hno.
    apply children_buildSubpaths in Hchild as (key & repos' & i & Hkey & Hi & Hrec).
    exists path, repos, repo, key. split_and!; [|done| |].
    + by apply (range_order_elem (Repos a)) in Hin.
    + apply (range_order_elem (Repos a)) in Hkey; [|done]. apply elem_of_dom. eauto.
    + apply recordsChild_impliesChild. eauto.
Qed.

End Validate.

Section ConfigValidate.

Variable UserHomeDir : string.
Variable filepath_Join : list string → string.

Local Abbreviation Validate_range := (Account_Validate_range UserHomeDir filepath_Join).
Local Abbreviation Config_Validate_range :=
  (Config_Validate_range UserHomeDir filepath_Join).
Local Abbreviation LoadFromPath_range := (LoadFromPath_range UserHomeDir filepath_Join).
Local Abbreviation conflictError := (conflictError UserHomeDir filepath_Join).

Lemma Config_Validate_first before name a rest inner e :
  (∀ name' a', (name', a') ∈ before →
     Validate_range a' name' (inner name').1 (inner name').2 = None) →
  Validate_range a name (inner name).1 (inner name).2 = Some e →
  Config_Validate_range (before ++ (name, a) :: rest) inner = Some e.
Proof.
  intros Hbefore Hhere. induction before as [|[name' a'] before IH]; simpl.
  - by rewrite Hhere.
  - rewrite (Hbefore name' a') by by left. apply IH.
    intros n' b' Hin. apply Hbefore. by right.
Qed.

Lemma Config_Validate_Some order inner e :
  Config_Validate_range order inner = Some e →
  ∃ name a, (name, a) ∈ order
    ∧ Validate_range a name (inner name).1 (inner name).2 = Some e.
Proof.
  induction order as [|[name a] order IH]; simpl; [done|].
  destruct (Validate_range a name (inner name).1 (inner name).2) as [e'|] eqn:Hhere.
  - intros [= ->]. exists name, a. split; [by left|done].
  - intros (name' & a' & ? & ?)%IH. exists name', a'. split; [by right|done].
Qed.

Lemma Config_Validate_None order inner :
  Config_Validate_range order inner = None
  ↔ ∀ name a, (name, a) ∈ order →
      Validate_range a name (inner name).1 (inner name).2 = None.
Proof.
  induction order as [|[name a] order IH]; simpl.
  - split; [|done]. intros _ name a Hin. by apply elem_of_nil in Hin.
  - destruct (Validate_range a name (inner name).1 (inner name).2) as [e'|] eqn:Hhere.
    + split; [done|]. intros Hall. rewrite (Hall name a) in Hhere; [done|by left].
    + rewrite IH. split.
      * intros Hall name' a' [Heq|Hin]%elem_of_cons; [by simplify_eq|eauto].
      * intros Hall name' a' Hin. apply Hall. by right.
Qed.

Lemma Config_Validate_conflict (c : Config) order inner :
  validOrders c order inner →
  (∀ e, Config_Validate_range order inner = Some e →
     ∃ name a path repos repo key,
       Accounts c !! name = Some a
       ∧ Repos a !! path = Some repos ∧ repo ∈ repos ∧ key ∈ dom (Repos a)
       ∧ impliesChild path key (resolvedName repo)
       ∧ e = conflictError name a path repo)
  ∧ (Config_Validate_range order inner = None
     ↔ ∀ name a, Accounts c !! name = Some a → ¬ hasConflict a).
Proof.
  intros [Horder Hinner]. split.
  - intros e (name & a & Hin & Hval)%Config_Validate_Some.
    apply (range_order_elem (Accounts c)) in Hin; [|done].
    destruct (Hinner name a Hin) as [H1 H2].
    apply Validate_range_Some in Hval as (path & repos & repo & key & ?); [|done..].
    by exists name, a, path, repos, repo, key.
  - rewrite Config_Validate_None. split.
    + intros Hall name a Hlook. destruct (Hinner name a Hlook) as [H1 H2].
      apply (Validate_range_None UserHomeDir filepath_Join a name _ _ H1 H2).
      apply Hall. by apply (range_order_elem (Accounts c)).
    + intros Hall name a Hin. apply (range_order_elem (Accounts c)) in Hin; [|done].
      destruct (Hinner name a Hin) as [H1 H2].
      apply Validate_range_None; [done..|]. by apply (Hall name).
Qed.

End ConfigValidate.

Lemma conflictAccount_Repos : Repos conflictAccount = list_to_map conflictOrder.
Proof. by vm_compute. Qed.

(** C2: [Validate] fails exactly when some path of [Repos] holds a repo
    whose resolved name is a child segment implied under that path by
    another key; the error carries the account name, the path, the repo
    name, and the root and directories of the common filesystem path; the
    validation of a configuration returns the error of the first account
    that fails, and [LoadFromPath] then returns this error and no
    configuration; the example with [repos.personal."/"] holding
    [dotfiles.git] next to [repos.personal.dotfiles] fails with path
    [personal] and repo [dotfiles]. *)
Theorem Validate_reports_conflicts home join (a : Account) accountName order1 order2 :
  range_order (Repos a) order1 → range_order (Repos a) order2 →
  (is_Some (Account_Validate_range home join a accountName order1 order2)
   ↔ hasConflict a)
  ∧ (∀ e, Account_Validate_range home join a accountName order1 order2 = Some e →
       ∃ path repos repo key,
         Repos a !! path = Some repos ∧ repo ∈ repos ∧ key ∈ dom (Repos a)
         ∧ impliesChild path key (resolvedName repo)
         ∧ e = ConfigConflict accountName path (resolvedName repo)
                 (path +:+ "." +:+ resolvedName repo)
                 (ExpandPath home join (Root a))
                 (strings.ReplaceAll (path +:+ "." +:+ resolvedName repo) "." "/"))
  ∧ (∀ before rest inner e,
       (∀ name' a', (name', a') ∈ before →
          Account_Validate_range home join a' name' (inner name').1 (inner name').2
          = None) →
       Account_Validate_range home join a accountName
         (inner accountName).1 (inner accountName).2 = Some e →
       Config_Validate_range home join (before ++ (accountName, a) :: rest) inner
       = Some e)
  ∧ (∀ raw accountsRaw order inner,
       mapIndex "accounts" raw = Some (VMap accountsRaw) →
       validOrders (mkConfig (loadAccounts accountsRaw)) order inner →
       ((∃ name b, loadAccounts accountsRaw !! name = Some b ∧ hasConflict b) →
        ∃ name b path repo,
          loadAccounts accountsRaw !! name = Some b
          ∧ LoadFromPath_range home join raw order inner
            = Err (conflictError home join name b path repo))
       ∧ ((∀ name b, loadAccounts accountsRaw !! name = Some b → ¬ hasConflict b) →
          LoadFromPath_range home join raw order inner
          = Ok (mkConfig (loadAccounts accountsRaw))))
  ∧ (∀ o1 o2, range_order (Repos conflictAccount) o1 →
       range_order (Repos conflictAccount) o2 →
       Account_Validate_range home join conflictAccount accountName o1 o2
       = Some (ConfigConflict accountName "personal" "dotfiles" "personal.dotfiles"
                 (ExpandPath home join "~/Projects") "personal/dotfiles"))
  ∧ (∀ inner, range_order (Repos conflictAccount) (inner "home").1 →
       range_order (Repos conflictAccount) (inner "home").2 →
       LoadFromPath_range home join conflictRaw [("home", conflictAccount)] inner
       = Err (ConfigConflict "home" "personal" "dotfiles" "personal.dotfiles"
                (ExpandPath home join "~/Projects") "personal/dotfiles")).
Proof.
  intros H1 H2. split_and!.
  - split.
    + intros [e He].
      apply Validate_range_Some in He as (path & repos & repo & key & ? & ? & ? & ? & _);
        [|done..].
      by exists path, repos, repo, key.
    + intros Hconflict.
      pose proof (Validate_range_None home join a accountName _ _ H1 H2) as Hnone.
      destruct (Account_Validate_range home join a accountName order1 order2);
        [by eauto|].
      by destruct (proj1 Hnone).
  - intros e He. by apply Validate_range_Some in He.
  - intros before rest inner e. apply Config_Validate_first.
  - intros raw accountsRaw order inner Hraw Horders.
    destruct (Config_Validate_conflict home join _ order inner Horders)
      as [Hsome Hnone].
    unfold LoadFromPath_range. rewrite Hraw. simpl in *. split.
    + intros (name & b & Hlook & Hconflict).
      destruct (Config_Validate_range home join order inner) as [e|] eqn:Hval.
      * destruct (Hsome e eq_refl)
          as (name' & b' & path & repos & repo & key & ? & _ & _ & _ & _ & ->).
        by exists name', b', path, repo.
      * destruct (proj1 Hnone eq_refl name b Hlook Hconflict).
    + intros Hall. by rewrite (proj2 Hnone Hall).
  - intros o1 o2. rewrite conflictAccount_Repos. unfold conflictOrder.
    intros Ho1 Ho2.
    apply range_order_two in Ho1; [|done]. apply range_order_two in Ho2; [|done].
    destruct Ho1 as [-> | ->], Ho2 as [-> | ->]; by vm_compute.
  - intros inner. rewrite conflictAccount_Repos. unfold conflictOrder.
    intros Ho1 Ho2. unfold LoadFromPath_range. simpl.
    apply range_order_two in Ho1; [|done]. apply range_order_two in Ho2; [|done].
    destruct Ho1 as [-> | ->], Ho2 as [-> | ->]; by vm_compute.
Qed.

Lemma Validate_reports_conflicts_witness :
  is_Some (Account_Validate_range "/home/u" joinWithSlash conflictAccount "home"
             conflictOrder conflictOrder)
  ↔ hasConflict conflictAccount.
Proof.
  assert (range_order (Repos conflictAccount) conflictOrder) as Horder.
  { rewrite conflictAccount_Repos. apply range_order_list_to_map. compute_done. }
  apply (Validate_reports_conflicts "/home/u" joinWithSlash conflictAccount "home"
           conflictOrder conflictOrder Horder Horder).
Defined.

(** * Further properties of the code *)

(** ** Sorting and printing the completion candidates *)

Lemma sort_Strings_Sorted (l : list string) : Sorted String.le (sort_Strings l).
Proof. apply (Sorted_merge_sort String.le). Qed.

Lemma sort_Strings_Permutation (l : list string) : sort_Strings l ≡ₚ l.
Proof. apply (merge_sort_Permutation String.le). Qed.

(** The sorted slice does not depend on how the sort proceeds nor on the
    order of its input. *)
Lemma sort_Strings_unique (l k : list string) :
  Sorted String.le k → k ≡ₚ l → k = sort_Strings l.
Proof.
  intros Hsorted Hperm. apply (Sorted_unique String.le); [done| |].
  - apply sort_Strings_Sorted.
  - by rewrite sort_Strings_Permutation.
Qed.

Lemma sort_Strings_perm (l k : list string) : l ≡ₚ k → sort_Strings l = sort_Strings k.
Proof.
  intros Hperm. apply sort_Strings_unique; [apply sort_Strings_Sorted|].
  by rewrite sort_Strings_Permutation.
Qed.

Lemma StronglySorted_filter_keeps {A} (R : relation A) (P : A → Prop)
    `{∀ x, Decision (P x)} (l : list A) :
  StronglySorted R l → StronglySorted R (filter P l).
Proof.
  induction 1 as [|x l Hl IH Hx]; [constructor|].
  rewrite filter_cons. case_decide; [|done].
  constructor; [done|]. apply Forall_forall. intros y [_ Hy]%list_elem_of_filter.
  by apply (proj1 (Forall_forall _ _) Hx).
Qed.

Lemma printWithPrefix_filter (prefix : string) (paths : list string) :
  printWithPrefix prefix paths
  = filter (λ path, strings.HasPrefix path prefix = true) paths.
Proof.
  unfold printWithPrefix.
  assert (∀ out, foldl (λ out path,
            if String.eqb prefix "" || strings.HasPrefix path prefix
            then out ++ [path] else out) out paths
          = out ++ filter (λ path, strings.HasPrefix path prefix = true) paths) as Hgen.
  { induction paths as [|path paths IH]; intros out; simpl.
    - by rewrite app_nil_r.
    - rewrite IH, filter_cons.
      destruct (String.eqb_spec prefix "") as [->|Hne]; simpl.
      + unfold strings.HasPrefix. rewrite prefix_empty.
        rewrite decide_True by done. by rewrite <-app_assoc.
      + destruct (strings.HasPrefix path prefix).
        * rewrite decide_True by done. by rewrite <-app_assoc.
        * by rewrite decide_False by done. }
  by rewrite Hgen.
Qed.

Lemma printWithPrefix_sorted (prefix : string) (l : list string) :
  NoDup l →
  let out := printWithPrefix prefix (sort_Strings l) in
  Sorted String.le out ∧ NoDup out
  ∧ ∀ s, s ∈ out ↔ s ∈ l ∧ strings.HasPrefix s prefix = true.
Proof.
  intros Hnodup out. unfold out. rewrite printWithPrefix_filter. split_and!.
  - apply StronglySorted_Sorted, StronglySorted_filter_keeps.
    apply Sorted_StronglySorted; [apply _|apply sort_Strings_Sorted].
  - apply NoDup_filter. by rewrite sort_Strings_Permutation.
  - intros s. rewrite list_elem_of_filter, sort_Strings_Permutation. tauto.
Qed.

Lemma RepoPaths_range_perm (a : Account) order order' :
  range_order (Repos a) order → range_order (Repos a) order' →
  Account_RepoPaths_range order ≡ₚ Account_RepoPaths_range order'.
Proof.
  intros H1 H2.
  destruct (RepoPaths_range_spec a order H1) as [Hnodup1 Helem1].
  destruct (RepoPaths_range_spec a order' H2) as [Hnodup2 Helem2].
  apply NoDup_Permutation; [done..|]. intros s. by rewrite Helem1, Helem2.
Qed.

Lemma AccountNames_range_fst (order : list (string * Account)) :
  Config_AccountNames_range order = order.*1.
Proof.
  unfold Config_AccountNames_range.
  assert (∀ names, foldl (λ names kv, names ++ [kv.1]) names order
                   = names ++ order.*1) as Hgen.
  { induction order as [|kv order IH]; intros names; simpl.
    - by rewrite app_nil_r.
    - by rewrite IH, <-app_assoc. }
  by rewrite Hgen.
Qed.

(** X1: [AccountNames] lists every account name of the configuration
    exactly once: the list has no duplicates, holds exactly the keys of
    [Accounts], has as many entries as there are accounts, and two calls
    return the same names up to their order. *)
Theorem AccountNames_lists_each_name_once (c : Config) order :
  range_order (Accounts c) order →
  NoDup (Config_AccountNames_range order)
  ∧ (∀ name, name ∈ Config_AccountNames_range order ↔ name ∈ dom (Accounts c))
  ∧ length (Config_AccountNames_range order) = size (Accounts c)
  ∧ (∀ order', range_order (Accounts c) order' →
       Config_AccountNames_range order' ≡ₚ Config_AccountNames_range order).
Proof.
  intros Horder. rewrite !(AccountNames_range_fst order). split_and!.
  - by apply (range_order_NoDup (Accounts c)).
  - intros name. rewrite elem_of_dom, list_elem_of_fmap. split.
    + intros ([name' a] & -> & Hin). exists a.
      by apply (range_order_elem (Accounts c)) in Hin.
    + intros [a Hlook]. exists (name, a). split; [done|].
      by apply (range_order_elem (Accounts c)).
  - rewrite length_fmap. by apply range_order_length.
  - intros order' Horder'. rewrite AccountNames_range_fst.
    unfold range_order in *. by rewrite Horder, Horder'.
Qed.

Lemma AccountNames_lists_each_name_once_witness :
  NoDup (Config_AccountNames_range threeOrder).
Proof.
  apply (AccountNames_lists_each_name_once threeAccounts threeOrder).
  apply range_order_list_to_map. compute_done.
Defined.

(** X2: the account completion command prints the account names that
    start with the typed prefix in increasing order, each once; its output
    does not depend on the order in which the map of accounts is visited;
    it prints nothing when the configuration cannot be loaded. *)
Theorem completeAccount_output (cfg : Config) (args : list string) order :
  range_order (Accounts cfg) order →
  let out := completeAccount (Ok cfg) args order in
  Sorted String.le out ∧ NoDup out
  ∧ (∀ name, name ∈ out
       ↔ name ∈ dom (Accounts cfg) ∧ strings.HasPrefix name (firstArg args) = true)
  ∧ (∀ order', range_order (Accounts cfg) order' →
       completeAccount (Ok cfg) args order' = out)
  ∧ (∀ e, completeAccount (Err e) args order = []).
Proof.
  intros Horder out. unfold out, completeAccount.
  rewrite AccountNames_range_fst.
  pose proof (range_order_NoDup _ _ Horder) as Hnodup.
  destruct (printWithPrefix_sorted (firstArg args) order.*1 Hnodup)
    as (Hsorted & Hnodup' & Helem).
  split_and!; [done|done| | |done].
  - intros name. rewrite Helem, elem_of_dom, list_elem_of_fmap.
    apply and_iff_compat_r. split.
    + intros ([name' a] & -> & Hin). exists a.
      by apply (range_order_elem (Accounts cfg)) in Hin.
    + intros [a Hlook]. exists (name, a). split; [done|].
      by apply (range_order_elem (Accounts cfg)).
  - intros order' Horder'. rewrite AccountNames_range_fst. f_equal.
    apply sort_Strings_perm. unfold range_order in *. by rewrite Horder, Horder'.
Qed.

Lemma completeAccount_output_witness :
  Sorted String.le (completeAccount (Ok threeAccounts) ["s"] threeOrder)
  ∧ completeAccount (Ok threeAccounts) ["s"] threeOrder = ["spare"].
Proof.
  assert (range_order (Accounts threeAccounts) threeOrder) as Horder.
  { apply range_order_list_to_map. compute_done. }
  destruct (completeAccount_output threeAccounts ["s"] threeOrder Horder)
    as (Hsorted & _).
  split; [exact Hsorted|reflexivity].
Defined.

(** X3: when an account is selected, the path completion command prints
    the keys of [Repos] and the qualified names [path.repoName] that start
    with the typed prefix, in increasing order and each once; its output
    does not depend on the order in which [RepoPaths] visits the map; it
    prints nothing when the configuration cannot be loaded or the account
    named by the flag does not exist. *)
Theorem completePath_output (cfg : Config) (accountFlag : string)
    (args : list string) order1 order2 repoOrder (a : Account) :
  (accountFlag ≠ "" ∧ Accounts cfg !! accountFlag = Some a
   ∨ accountFlag = ""
     ∧ ∃ name, Config_DefaultAccount_range cfg order1 order2 = Ok (a, name)) →
  range_order (Repos a) repoOrder →
  let out := completePath (Ok cfg) accountFlag args order1 order2 repoOrder in
  Sorted String.le out ∧ NoDup out
  ∧ (∀ s, s ∈ out ↔ isRepoPath a s ∧ strings.HasPrefix s (firstArg args) = true)
  ∧ (∀ repoOrder', range_order (Repos a) repoOrder' →
       completePath (Ok cfg) accountFlag args order1 order2 repoOrder' = out)
  ∧ (∀ e, completePath (Err e) accountFlag args order1 order2 repoOrder = [])
  ∧ (∀ flag, flag ≠ "" → Accounts cfg !! flag = None →
       completePath (Ok cfg) flag args order1 order2 repoOrder = []).
Proof.
  intros Hselected Horder out.
  assert (∀ ro, completePath (Ok cfg) accountFlag args order1 order2 ro
    = printWithPrefix (firstArg args) (sort_Strings (Account_RepoPaths_range ro)))
    as Hrun.
  { intros ro. unfold completePath, Config_GetAccount.
    destruct Hselected as [[Hflag Hlook]|[-> [name Hdefault]]].
    - apply eqb_false_iff in Hflag as ->. simpl. by rewrite Hlook.
    - simpl. by rewrite Hdefault. }
  unfold out. rewrite Hrun.
  destruct (RepoPaths_range_spec a repoOrder Horder) as [Hnodup Hpaths].
  destruct (printWithPrefix_sorted (firstArg args) _ Hnodup)
    as (Hsorted & Hnodup' & Helem).
  split_and!; [done|done| | |done|].
  - intros s. by rewrite Helem, Hpaths.
  - intros repoOrder' Horder'. rewrite Hrun. f_equal.
    apply sort_Strings_perm. by apply (RepoPaths_range_perm a).
  - intros flag Hflag Hlook. unfold completePath, Config_GetAccount.
    apply eqb_false_iff in Hflag as ->. simpl. by rewrite Hlook.
Qed.

Lemma completePath_output_witness :
  completePath (Ok (mkConfig (list_to_map [("home", filterAccount)]))) "home"
    ["work"] [] [] filterOrder'
  = ["work.backend"; "work.backend.api"; "work.backend.worker"].
Proof.
  set (cfg := mkConfig (list_to_map [("home", filterAccount)])).
  assert ("home" ≠ "" ∧ Accounts cfg !! "home" = Some filterAccount
          ∨ "home" = ""
            ∧ ∃ name, Config_DefaultAccount_range cfg [] [] = Ok (filterAccount, name))
    as Hselected.
  { left. split; [discriminate|reflexivity]. }
  destruct (completePath_output cfg "home" ["work"] [] [] filterOrder' filterAccount
              Hselected filterOrder'_range) as (_ & _ & _ & Hsame & _).
  rewrite <-(Hsame filterOrder filterOrder_range). reflexivity.
Defined.

(** ** The parser writes below its prefix *)

Lemma currentPath_prefix (prefix key : string) :
  String.prefix prefix (if String.eqb prefix "" then key else prefix +:+ "." +:+ key)
  = true.
Proof.
  destruct (String.eqb_spec prefix "") as [->|_]; [apply prefix_empty|apply prefix_append].
Qed.

Lemma prefix_false_trans (p q s : string) :
  String.prefix p q = true → String.prefix p s = false → String.prefix q s = false.
Proof.
  intros Hpq Hps. destruct (String.prefix q s) eqn:Hqs; [|done].
  by rewrite (prefix_trans p q s Hpq Hqs) in Hps.
Qed.

Lemma parseEntry_frame (v : value) :
  ∀ prefix key repos K,
    strings.HasPrefix K prefix = false →
    parseEntry prefix key v repos !! K = repos !! K.
Proof.
  unfold strings.HasPrefix.
  induction v as [s|b| |items|entries IH] using value_nested_ind;
    intros prefix key repos K HK; try done.
  - rewrite parseEntry_VArray. apply lookup_insert_ne. intros <-.
    destruct (String.eqb key "/"); [by rewrite prefix_refl in HK|].
    by rewrite currentPath_prefix in HK.
  - rewrite parseEntry_VMap.
    pose proof (prefix_false_trans _ _ K (currentPath_prefix prefix key) HK) as Hcur.
    revert Hcur. generalize (if String.eqb prefix "" then key else prefix +:+ "." +:+ key).
    intros cur Hcur. unfold parseReposRecursive. revert repos.
    induction entries as [|[k x] entries IHe]; intros repos; [done|].
    inversion IH as [|?? IHx IHrest]; subst. simpl.
    rewrite IHe by done. by apply IHx.
Qed.

Lemma parseEntry_dom (v : value) :
  ∀ prefix key repos, dom repos ⊆ dom (parseEntry prefix key v repos).
Proof.
  induction v as [s|b| |items|entries IH] using value_nested_ind;
    intros prefix key repos; try done.
  - rewrite parseEntry_VArray, dom_insert_L. set_solver.
  - rewrite parseEntry_VMap.
    generalize (if String.eqb prefix "" then key else prefix +:+ "." +:+ key).
    intros cur. unfold parseReposRecursive. revert repos.
    induction entries as [|[k x] entries IHe]; intros repos; [done|].
    inversion IH as [|?? IHx IHrest]; subst. simpl.
    etrans; [apply (IHx cur k repos)|]. by apply IHe.
Qed.

(** X4: [parseReposRecursive] only writes below its prefix and never
    removes an entry: a key that does not start with the prefix keeps the
    repos it had, and every key present before the call is present
    after it. *)
Theorem parseReposRecursive_writes_below_prefix
    (data : list (string * value)) (prefix : string) (repos : gmap string (list Repo)) :
  (∀ K, strings.HasPrefix K prefix = false →
        parseReposRecursive data prefix repos !! K = repos !! K)
  ∧ dom repos ⊆ dom (parseReposRecursive data prefix repos).
Proof.
  unfold parseReposRecursive. revert repos.
  induction data as [|[k x] data IH]; intros repos; simpl; [done|].
  destruct (IH (parseEntry prefix k x repos)) as [Hframe Hdom]. split.
  - intros K HK. rewrite Hframe by done. by apply parseEntry_frame.
  - etrans; [apply (parseEntry_dom x prefix k repos)|done].
Qed.

(** ** What a successful validation guarantees *)

Lemma segments_qualifiedName (path : string) (repo : Repo) :
  ¬ occurs "." (resolvedName repo) →
  segments (qualifiedName path repo) = segments path ++ [resolvedName repo].
Proof.
  intros Hname. unfold segments, qualifiedName.
  rewrite sep_append, Split_append_sep.
  by rewrite (Split_no_occurrence (resolvedName repo)).
Qed.

(** X5: an account none of whose keys contains a dot always passes
    [Validate], whatever its repos are called. *)
Theorem Validate_flat_account_passes home join (a : Account) accountName order1 order2 :
  range_order (Repos a) order1 → range_order (Repos a) order2 →
  (∀ key, key ∈ dom (Repos a) → ¬ occurs "." key) →
  Account_Validate_range home join a accountName order1 order2 = None.
Proof.
  intros H1 H2 Hflat. apply Validate_range_None; [done..|].
  intros (path & repos & repo & key & _ & _ & Hkey & deeper & Hsegments).
  unfold segments in Hsegments.
  rewrite (Split_no_occurrence key) in Hsegments by by apply Hflat.
  pose proof (Split_length_pos path ".") as Hpos.
  apply (f_equal length) in Hsegments. rewrite length_app in Hsegments.
  simpl in Hsegments. lia.
Qed.

Lemma Validate_flat_account_passes_witness :
  Account_Validate_range "/home/u" joinWithSlash workshopAccount "home"
    [("workshop", [slidesRepo])] [("workshop", [slidesRepo])] = None.
Proof.
  assert (range_order (Repos workshopAccount) [("workshop", [slidesRepo])]) as Horder.
  { apply range_order_list_to_map. compute_done. }
  apply (Validate_flat_account_passes "/home/u" joinWithSlash workshopAccount "home"
           _ _ Horder Horder).
  intros key Hkey. unfold workshopAccount in Hkey. simpl in Hkey.
  rewrite dom_insert_L, dom_empty_L in Hkey.
  apply elem_of_union in Hkey as [Hkey|Hkey]; [|by apply elem_of_empty in Hkey].
  apply elem_of_singleton in Hkey as ->. simpl.
  intros H. repeat (destruct H as [H|H]; [discriminate|]). exact H.
Defined.

(** X6: after a successful [Validate], the qualified name [path.name] of
    a repo whose name contains no dot is neither a key of [Repos] nor a
    dot-prefix of one: no string names both a repo and a subtree. *)
Theorem Validate_separates_repos_from_paths home join (a : Account) accountName
    order1 order2 path repos repo key :
  range_order (Repos a) order1 → range_order (Repos a) order2 →
  Account_Validate_range home join a accountName order1 order2 = None →
  Repos a !! path = Some repos → repo ∈ repos →
  ¬ occurs "." (resolvedName repo) →
  key ∈ dom (Repos a) →
  ¬ segments (qualifiedName path repo) `prefix_of` segments key
  ∧ qualifiedName path repo ≠ key.
Proof.
  intros H1 H2 Hvalid Hlook Hrepo Hname Hkey.
  assert (¬ segments (qualifiedName path repo) `prefix_of` segments key) as Hno.
  { intros [deeper Hsegments].
    apply (Validate_range_None home join a accountName _ _ H1 H2) in Hvalid.
    apply Hvalid. exists path, repos, repo, key. split_and!; [done..|].
    exists deeper. by rewrite Hsegments, segments_qualifiedName, <-app_assoc. }
  split; [done|]. intros Heq. apply Hno. by rewrite Heq.
Qed.

Lemma Validate_separates_repos_from_paths_witness :
  qualifiedName "work.backend" apiRepo ≠ "personal".
Proof.
  apply (Validate_separates_repos_from_paths "/home/u" joinWithSlash filterAccount
           "home" filterOrder filterOrder "work.backend" [apiRepo; workerRepo]
           apiRepo "personal" filterOrder_range filterOrder_range).
  - reflexivity.
  - reflexivity.
  - by left.
  - simpl. intros H. repeat (destruct H as [H|H]; [discriminate|]). exact H.
  - apply elem_of_dom. vm_compute. eauto.
Defined.

(** ** Selecting the account *)

Lemma DefaultAccount_range_Ok (c : Config) order1 order2 account name :
  range_order (Accounts c) order1 → range_order (Accounts c) order2 →
  Config_DefaultAccount_range c order1 order2 = Ok (account, name) →
  Accounts c !! name = Some account
  ∧ (Default account = true ∨ noneDefault c ∧ size (Accounts c) = 1).
Proof.
  intros H1 H2. unfold Config_DefaultAccount_range.
  destruct (firstDefault order1) as [[account' name']|] eqn:Hfirst.
  - intros [= -> ->]. apply firstDefault_Some in Hfirst as [Hin Hdef].
    split; [|by left]. by apply (range_order_elem (Accounts c)) in Hin.
  - destruct (size (Accounts c) =? 1) eqn:Hsize; [|done].
    destruct order2 as [|[name' account'] order2]; [done|].
    intros [= -> ->]. split.
    + apply (range_order_elem (Accounts c) _ name account H2). by left.
    + right. split; [|by apply Nat.eqb_eq].
      intros n b Hlook. rewrite firstDefault_None in Hfirst.
      apply (Hfirst n). by apply (range_order_elem (Accounts c)).
Qed.

Lemma DefaultAccount_range_Err (c : Config) order1 order2 e :
  range_order (Accounts c) order1 → range_order (Accounts c) order2 →
  Config_DefaultAccount_range c order1 order2 = Err e ↔
  e = NoDefaultAmbiguous ∧ noneDefault c ∧ size (Accounts c) ≠ 1.
Proof.
  intros H1 H2. unfold Config_DefaultAccount_range.
  pose proof (range_order_length _ _ H2) as Hlen.
  destruct (firstDefault order1) as [[account' name']|] eqn:Hfirst.
  - split; [done|]. intros (_ & Hnone & _).
    apply firstDefault_Some in Hfirst as [Hin Hdef].
    apply (range_order_elem (Accounts c)) in Hin; [|done].
    by rewrite (Hnone _ _ Hin) in Hdef.
  - assert (noneDefault c) as Hnone.
    { intros n b Hlook. rewrite firstDefault_None in Hfirst.
      apply (Hfirst n). by apply (range_order_elem (Accounts c)). }
    destruct (Nat.eqb_spec (size (Accounts c)) 1) as [Hsize|Hsize].
    + destruct order2 as [|[name' account'] order2]; [simpl in Hlen; lia|].
      split; [done|]. by intros (_ & _ & ?).
    + split; [by intros [= <-]|by intros [-> _]].
Qed.

(** X7: [DefaultAccount] fails exactly when no account is flagged default
    and the number of accounts is not one (an empty configuration
    included), always with the same error; when it succeeds, the name it
    returns is the key of the account it returns, and that account is
    flagged default or is the only account; with several flagged accounts
    it returns one of them. *)
Theorem DefaultAccount_outcomes (c : Config) order1 order2 :
  range_order (Accounts c) order1 → range_order (Accounts c) order2 →
  (∀ e, Config_DefaultAccount_range c order1 order2 = Err e ↔
        e = NoDefaultAmbiguous ∧ noneDefault c ∧ size (Accounts c) ≠ 1)
  ∧ (∀ account name,
       Config_DefaultAccount_range c order1 order2 = Ok (account, name) →
       Accounts c !! name = Some account
       ∧ (Default account = true ∨ noneDefault c ∧ size (Accounts c) = 1))
  ∧ (¬ noneDefault c →
     ∃ account name,
       Config_DefaultAccount_range c order1 order2 = Ok (account, name)
       ∧ Default account = true).
Proof.
  intros H1 H2. split_and!.
  - intros e. by apply DefaultAccount_range_Err.
  - intros account name. by apply DefaultAccount_range_Ok.
  - intros Hsome.
    destruct (Config_DefaultAccount_range c order1 order2) as [[account name]|e] eqn:Hres.
    + exists account, name. split; [done|].
      apply (DefaultAccount_range_Ok _ _ _ _ _ H1 H2) in Hres as [_ [?|[Hnone _]]];
        [done|by destruct Hsome].
    + apply (DefaultAccount_range_Err _ _ _ _ H1 H2) in Hres as (_ & Hnone & _).
      by destruct Hsome.
Qed.

Lemma DefaultAccount_outcomes_witness :
  Config_DefaultAccount_range (mkConfig ∅) [] [] = Err NoDefaultAmbiguous.
Proof.
  assert (range_order (Accounts (mkConfig ∅)) []) as Horder.
  { unfold range_order. simpl. by rewrite map_to_list_empty. }
  destruct (DefaultAccount_outcomes (mkConfig ∅) [] [] Horder Horder) as [Herr _].
  apply Herr. split_and!; [reflexivity| |].
  - intros name account Hlook. simpl in Hlook. by rewrite lookup_empty in Hlook.
  - simpl. rewrite map_size_empty. lia.
Defined.

(** X8: the account flag takes precedence in [getAccount]: with a flag
    that names no account the call fails with "account not found" even
    when a default account exists, and with a flag that names an account
    it returns that account; in every case the name returned is the key of
    the account returned. *)
Theorem getAccount_flag_precedence (cfg : Config) (accountFlag : string) order1 order2 :
  range_order (Accounts cfg) order1 → range_order (Accounts cfg) order2 →
  (accountFlag ≠ "" → Accounts cfg !! accountFlag = None →
   getAccount cfg accountFlag order1 order2 = Err (AccountNotFound accountFlag))
  ∧ (∀ account, accountFlag ≠ "" → Accounts cfg !! accountFlag = Some account →
       getAccount cfg accountFlag order1 order2 = Ok (account, accountFlag))
  ∧ (∀ account name,
       getAccount cfg accountFlag order1 order2 = Ok (account, name) →
       Accounts cfg !! name = Some account).
Proof.
  intros H1 H2. unfold getAccount, Config_GetAccount. split_and!.
  - intros Hflag%eqb_false_iff Hlook. by rewrite Hflag, Hlook.
  - intros account Hflag%eqb_false_iff Hlook. by rewrite Hflag, Hlook.
  - intros account name. destruct (String.eqb accountFlag ""); simpl.
    + intros Hres. by apply (DefaultAccount_range_Ok _ _ _ _ _ H1 H2) in Hres as [? _].
    + destruct (Accounts cfg !! accountFlag) eqn:Hlook; [|done].
      by intros [= -> ->].
Qed.

Lemma getAccount_flag_precedence_witness :
  getAccount threeAccounts "laptop" threeOrder threeOrder
  = Err (AccountNotFound "laptop").
Proof.
  assert (range_order (Accounts threeAccounts) threeOrder) as Horder.
  { apply range_order_list_to_map. compute_done. }
  destruct (getAccount_flag_precedence threeAccounts "laptop" _ _ Horder Horder)
    as [Hmissing _].
  apply Hmissing; [discriminate|reflexivity].
Defined.

(** ** What [GetRepos] returns *)

Lemma pathSkipped_empty_filter (path : string) : pathSkipped path "" = false.
Proof. reflexivity. Qed.

Lemma repoSkipped_empty_filter (path name : string) : repoSkipped path name "" = false.
Proof. reflexivity. Qed.

Lemma bind_sublist_pointwise {A B} (f g : A → list B) (l : list A) :
  (∀ x, f x `sublist_of` g x) → l ≫= f `sublist_of` l ≫= g.
Proof.
  intros Hfg. induction l as [|x l IH]; [done|].
  rewrite !bind_cons. by apply sublist_app.
Qed.

(** X9: every record returned by [GetRepos] describes a configured repo:
    its path is a key of [Repos], its repo is one of the repos stored
    there, its name is the resolved name of that repo, and its full path
    is [filepath.Join] of the expanded root, the path with dots turned
    into separators, and the name. *)
Theorem GetRepos_returns_configured_repos home join (a : Account) order pathFilter rp :
  range_order (Repos a) order →
  rp ∈ Account_GetRepos_range home join a order pathFilter →
  (∃ repos, Repos a !! rwpPath rp = Some repos ∧ rwpRepo rp ∈ repos)
  ∧ rwpName rp = resolvedName (rwpRepo rp)
  ∧ rwpFullPath rp
    = join [ExpandPath home join (Root a);
            strings.ReplaceAll (rwpPath rp) "." "/";
            rwpName rp].
Proof.
  intros Horder (path & repos & repo & Hin & Hrepo & _ & _ & ->)%GetRepos_range_elem.
  simpl. split_and!; [|done..]. exists repos. split; [|done].
  by apply (range_order_elem (Repos a)) in Hin.
Qed.

Lemma GetRepos_returns_configured_repos_witness :
  rwpName (resolved "/home/u" joinWithSlash filterAccount "personal" dotfilesRepo)
  = resolvedName dotfilesRepo.
Proof.
  destruct (GetRepos_returns_configured_repos "/home/u" joinWithSlash filterAccount
              filterOrder "personal"
              (resolved "/home/u" joinWithSlash filterAccount "personal" dotfilesRepo)
              filterOrder_range) as (_ & Hname & _); [|exact Hname].
  apply list_elem_of_In. simpl. tauto.
Defined.

(** X10: with the empty filter [GetRepos] returns every repo of every
    path, in visiting order and in the order of each repo array; with any
    filter it returns a sub-list of that result taken in the same
    visiting order, so a filter only ever removes repos. *)
Theorem GetRepos_filter_only_removes home join (a : Account) order pathFilter :
  Account_GetRepos_range home join a order ""
  = (order ≫= λ kv, resolved home join a kv.1 <$> kv.2)
  ∧ length (Account_GetRepos_range home join a order "")
    = sum_list_with (λ kv, length kv.2) order
  ∧ Account_GetRepos_range home join a order pathFilter
    `sublist_of` Account_GetRepos_range home join a order "".
Proof.
  assert (Account_GetRepos_range home join a order ""
          = (order ≫= λ kv, resolved home join a kv.1 <$> kv.2)) as Hall.
  { rewrite GetRepos_range_bind. apply list_bind_ext; [|done].
    intros [path repos]. simpl. induction repos as [|repo repos IH]; [done|].
    rewrite bind_cons, fmap_cons. by rewrite IH. }
  split_and!; [done| |].
  - rewrite Hall. clear Hall. induction order as [|[path repos] order IH]; [done|].
    rewrite bind_cons, length_app, length_fmap. simpl. by rewrite IH.
  - rewrite !GetRepos_range_bind. apply bind_sublist_pointwise.
    intros [path repos]. simpl.
    destruct (pathSkipped path pathFilter); [apply sublist_nil_l|].
    apply bind_sublist_pointwise. intros repo.
    destruct (repoSkipped path (resolvedName repo) pathFilter);
      [apply sublist_nil_l|done].
Qed.

(** X11: every completion candidate works as a filter: for a repo stored
    at a path, [GetRepos] called with the qualified name [path.name]
    returns that repo, and [GetRepos] called with the path itself returns
    every repo stored at that path. *)
Theorem GetRepos_accepts_completion_candidates home join (a : Account) order
    path repos repo :
  range_order (Repos a) order →
  Repos a !! path = Some repos → repo ∈ repos →
  resolved home join a path repo
    ∈ Account_GetRepos_range home join a order (qualifiedName path repo)
  ∧ resolved home join a path repo ∈ Account_GetRepos_range home join a order path.
Proof.
  intros Horder Hlook Hrepo.
  rewrite !(GetRepos_range_kept _ _ _ _ _ _ _ _ Horder Hlook Hrepo).
  assert (String.prefix path (qualifiedName path repo) = true) as Hqual.
  { apply prefix_append. }
  split_and!.
  - unfold pathSkipped, strings.HasPrefix. rewrite Hqual.
    by rewrite andb_false_r, andb_false_r.
  - apply repoSkipped_prefix. unfold strings.HasPrefix. apply prefix_refl.
  - unfold pathSkipped, strings.HasPrefix. rewrite prefix_refl. simpl.
    by rewrite andb_false_r.
  - by apply repoSkipped_prefix.
Qed.

Lemma GetRepos_accepts_completion_candidates_witness :
  resolved "/home/u" joinWithSlash filterAccount "work.backend" workerRepo
    ∈ Account_GetRepos_range "/home/u" joinWithSlash filterAccount filterOrder
        "work.backend.worker".
Proof.
  apply (GetRepos_accepts_completion_candidates "/home/u" joinWithSlash
           filterAccount filterOrder "work.backend" [apiRepo; workerRepo]
           workerRepo filterOrder_range).
  - reflexivity.
  - apply list_elem_of_In. simpl. tauto.
Defined.

(** ** More on [RepoName] *)

Lemma lastElement_no_separator (rpath : string) :
  ¬ occurs filepath.Separator (filepath.lastElement rpath).
Proof.
  induction rpath as [|c rest IH]; simpl; [tauto|].
  destruct (Ascii.eqb_spec c filepath.Separator) as [->|Hc]; simpl; [tauto|].
  intros [?|?]; [congruence|done].
Qed.

Lemma Base_no_separator (path : string) :
  filepath.Base path = "/" ∨ ¬ occurs filepath.Separator (filepath.Base path).
Proof.
  unfold filepath.Base. destruct (String.eqb path "").
  { right. simpl. intros H. repeat (destruct H as [H|H]; [discriminate|]). exact H. }
  destruct (String.eqb _ ""); [by left|]. right.
  rewrite occurs_rev. apply lastElement_no_separator.
Qed.

Lemma occurs_substring_0 (c : ascii) (n : nat) (s : string) :
  occurs c (String.substring 0 n s) → occurs c s.
Proof.
  revert n. induction s as [|a s IH]; intros [|n]; simpl; try tauto.
  intros [?|?]; [by left|right; eauto].
Qed.

(** X12: the name [RepoName] derives from a URL never contains a path
    separator, except that a URL made of separators only gives ["/"]: the
    derived name is a single path component. *)
Theorem RepoName_is_one_component (url : string) :
  RepoName url = "/" ∨ ¬ occurs "/" (RepoName url).
Proof.
  unfold RepoName. destruct (Base_no_separator url) as [-> |Hbase]; [by left|].
  right. unfold strings.TrimSuffix. destruct (strings.HasSuffix _ _); [|done].
  intros Hocc%occurs_substring_0. by apply Hbase.
Qed.

Lemma lastPathSegment_trailing (url seg slashes : string) :
  lastPathSegment url seg → onlySeparators slashes →
  lastPathSegment (url +:+ slashes) seg.
Proof.
  intros (Hne & Hseg & before & after & Hafter & Hurl) Hslashes.
  split_and!; [done..|]. exists before, (after +:+ slashes). split.
  - intros c [?|?]%occurs_append; auto.
  - destruct Hurl as [-> | ->]; [left|right]; by rewrite !append_assoc.
Qed.

(** X13: [RepoName] depends only on the last path segment of the URL:
    two URLs with the same last segment give the same name, as the SSH and
    HTTPS forms of one repository do, and separators appended to a URL do
    not change its name. *)
Theorem RepoName_depends_on_last_segment (url1 url2 seg slashes : string) :
  lastPathSegment url1 seg → lastPathSegment url2 seg → onlySeparators slashes →
  RepoName url1 = RepoName url2
  ∧ RepoName (url1 +:+ slashes) = RepoName url1.
Proof.
  intros H1 H2 Hslashes. unfold RepoName.
  rewrite (Base_lastPathSegment _ _ H1), (Base_lastPathSegment _ _ H2).
  by rewrite (Base_lastPathSegment _ _ (lastPathSegment_trailing _ _ _ H1 Hslashes)).
Qed.

Lemma RepoName_depends_on_last_segment_witness :
  RepoName "git@github.com:org/my-repo.git"
  = RepoName "https://github.com/org/my-repo.git".
Proof.
  apply (RepoName_depends_on_last_segment "git@github.com:org/my-repo.git"
           "https://github.com/org/my-repo.git" "my-repo.git" "//").
  - split_and!; [discriminate| |].
    + simpl. intros H. repeat (destruct H as [H|H]; [discriminate|]). exact H.
    + exists "git@github.com:org", "". split; [intros c []|by right].
  - split_and!; [discriminate| |].
    + simpl. intros H. repeat (destruct H as [H|H]; [discriminate|]). exact H.
    + exists "https://github.com/org", "". split; [intros c []|by right].
  - intros c Hc. simpl in Hc. by destruct Hc as [<-|[<-|[]]].
Defined.

(** ** The cells of the status table *)

Lemma length_substring_0 (n : nat) (s : string) :
  n ≤ String.length s → String.length (String.substring 0 n s) = n.
Proof.
  revert n. induction s as [|a s IH]; intros [|n] Hn; simpl in *; try done; try lia.
  rewrite IH; [done|lia].
Qed.

Lemma wrapInt_small (z : Z) : (- 2 ^ 63 ≤ z < 2 ^ 63)%Z → wrapInt z = z.
Proof.
  intros Hz. unfold wrapInt. rewrite Z.mod_small; lia.
Qed.

Lemma wrapInt_min : wrapInt (- 2 ^ 63 - 1) = (2 ^ 63 - 1)%Z.
Proof. reflexivity. Qed.

(** X14: for strings shorter than the largest [int], [truncate] panics
    exactly when [maxLen] is below one and below the length of the string,
    so a width of zero or less panics on every display path [path.name];
    for a width of at least one it returns the string itself when it fits,
    and otherwise its first [maxLen - 1] bytes followed by the three-byte
    ellipsis, [maxLen + 2] bytes in all. *)
Theorem truncate_outcomes (s : string) (maxLen : Z) :
  (- 2 ^ 63 ≤ maxLen < 2 ^ 63)%Z →
  (Z.of_nat (String.length s) < 2 ^ 63 - 1)%Z →
  (truncate s maxLen = None
   ↔ (maxLen < 1)%Z ∧ (maxLen < Z.of_nat (String.length s))%Z)
  ∧ ((Z.of_nat (String.length s) ≤ maxLen)%Z → truncate s maxLen = Some s)
  ∧ ((1 ≤ maxLen < Z.of_nat (String.length s))%Z →
     ∃ cell, truncate s maxLen = Some cell
       ∧ cell = String.substring 0 (Z.to_nat (maxLen - 1)) s +:+ "…"
       ∧ Z.of_nat (String.length cell) = (maxLen + 2)%Z)
  ∧ (∀ path name,
       (Z.of_nat (String.length (path +:+ "." +:+ name)) < 2 ^ 63 - 1)%Z →
       (maxLen ≤ 0)%Z → truncate (path +:+ "." +:+ name) maxLen = None).
Proof.
  intros Hint Hlen.
  assert (∀ t, (Z.of_nat (String.length t) < 2 ^ 63 - 1)%Z →
            truncate t maxLen = None
            ↔ (maxLen < 1)%Z ∧ (maxLen < Z.of_nat (String.length t))%Z) as Hpanic.
  { intros t Ht. unfold truncate.
    destruct (Z.leb_spec (Z.of_nat (String.length t)) maxLen) as [Hfit|Hlong].
    { split; [done|lia]. }
    destruct (decide (maxLen = - 2 ^ 63)%Z) as [->|Hmin].
    - rewrite wrapInt_min.
      destruct (Z.leb_spec (2 ^ 63 - 1) (Z.of_nat (String.length t))); [lia|].
      rewrite andb_false_r. split; [lia|done].
    - rewrite wrapInt_small by lia.
      destruct (Z.leb_spec 0 (maxLen - 1)) as [Hpos|Hneg]; simpl.
      + destruct (Z.leb_spec (maxLen - 1) (Z.of_nat (String.length t))); [|lia].
        split; [done|lia].
      + split; [lia|done]. }
  split_and!.
  - by apply Hpanic.
  - intros Hfit. unfold truncate.
    by destruct (Z.leb_spec (Z.of_nat (String.length s)) maxLen); [|lia].
  - intros Hlong. unfold truncate.
    destruct (Z.leb_spec (Z.of_nat (String.length s)) maxLen); [lia|].
    rewrite wrapInt_small by lia.
    destruct (Z.leb_spec 0 (maxLen - 1)); [|lia].
    destruct (Z.leb_spec (maxLen - 1) (Z.of_nat (String.length s))); [|lia].
    simpl. eexists. split_and!; [done..|].
    rewrite length_append, length_substring_0 by lia.
    change (String.length "…") with 3. lia.
  - intros path name Hshort Hwidth. apply Hpanic; [done|].
    rewrite !length_append. simpl. lia.
Qed.

Lemma truncate_outcomes_witness : truncate "work.backend.api" 0 = None.
Proof.
  destruct (truncate_outcomes "work.backend.api" 0) as [Hpanic _].
  - lia.
  - vm_compute. reflexivity.
  - apply Hpanic. simpl. lia.
Defined.

Lemma countVisible_ascii (a : ascii) (rest : string) (inEscape : bool) (visible : Z) :
  (N_of_ascii a <? 0x80)%N = true →
  countVisible (String a rest) 0 inEscape visible
  = if (N_of_ascii a =? 0x1B)%N then countVisible rest 0 true visible
    else if inEscape && (N_of_ascii a =? 0x6D)%N then countVisible rest 0 false visible
    else if negb inEscape then countVisible rest 0 inEscape (visible + 1)
    else countVisible rest 0 inEscape visible.
Proof. intros Ha. simpl. unfold nextRune. by rewrite Ha. Qed.

Lemma countVisible_plain (t rest : string) (visible : Z) :
  plainAscii t = true →
  countVisible (t +:+ rest) 0 false visible
  = countVisible rest 0 false (visible + Z.of_nat (String.length t)).
Proof.
  revert visible. induction t as [|a t IH]; intros visible Ht.
  - rewrite append_empty_l. simpl. by rewrite Z.add_0_r.
  - simpl in Ht. apply andb_true_iff in Ht as [Ha Ht].
    apply andb_true_iff in Ha as [Hascii Hesc]. apply negb_true_iff in Hesc.
    rewrite append_String, countVisible_ascii by done. rewrite Hesc. simpl negb.
    cbv iota. rewrite andb_false_l. rewrite IH by done.
    f_equal. simpl String.length. lia.
Qed.

Lemma countVisible_plain_end (t : string) (visible : Z) :
  plainAscii t = true →
  countVisible t 0 false visible = (visible + Z.of_nat (String.length t))%Z.
Proof.
  intros Ht. rewrite <-(append_empty_r t) at 1.
  by rewrite countVisible_plain.
Qed.

Lemma countVisible_color (color rest : string) (visible : Z) :
  color ∈ colorReset :: palette →
  countVisible (color +:+ rest) 0 false visible = countVisible rest 0 false visible.
Proof.
  unfold palette. rewrite !elem_of_cons, elem_of_nil.
  intros [->|[->|[->|[->|[->|[->|[->|[]]]]]]]]; reflexivity.
Qed.

Lemma length_Repeat_space (n : nat) : String.length (Repeat " " n) = n.
Proof.
  induction n as [|n IH]; [done|].
  simpl Repeat. rewrite length_append, IH. done.
Qed.

Lemma plainAscii_append (s t : string) :
  plainAscii (s +:+ t) = plainAscii s && plainAscii t.
Proof.
  induction s as [|a s IH]; [done|].
  rewrite append_String. simpl. rewrite IH. by rewrite !andb_assoc.
Qed.

Lemma plainAscii_Repeat_space (n : nat) : plainAscii (Repeat " " n) = true.
Proof.
  induction n as [|n IH]; [done|].
  simpl Repeat. by rewrite plainAscii_append, IH.
Qed.

Lemma plainAscii_substring_0 (n : nat) (s : string) :
  plainAscii s = true → plainAscii (String.substring 0 n s) = true.
Proof.
  revert n. induction s as [|a s IH]; intros [|n]; simpl; try done.
  intros [Ha Hs]%andb_true_iff. rewrite Ha. simpl. by apply IH.
Qed.

(** X15: [padRight] never shortens its argument, it only appends spaces;
    on a string of plain ASCII it appends exactly the spaces that are
    missing, so that the result has [max(len(s), width)] bytes, all of
    them visible. *)
Theorem padRight_pads_with_spaces (s : string) (width : Z) :
  (∃ n, padRight s width = s +:+ Repeat " " n)
  ∧ (plainAscii s = true →
     padRight s width
     = s +:+ Repeat " " (Z.to_nat (width - Z.of_nat (String.length s)))
     ∧ Z.of_nat (String.length (padRight s width))
       = Z.max (Z.of_nat (String.length s)) width
     ∧ countVisible (padRight s width) 0 false 0
       = Z.max (Z.of_nat (String.length s)) width).
Proof.
  split.
  - unfold padRight. destruct (width <=? countVisible s 0 false 0)%Z.
    + exists 0. by rewrite append_empty_r.
    + eauto.
  - intros Hs.
    assert (padRight s width
            = s +:+ Repeat " " (Z.to_nat (width - Z.of_nat (String.length s)))) as Hpad.
    { unfold padRight. rewrite countVisible_plain_end by done. rewrite Z.add_0_l.
      destruct (Z.leb_spec width (Z.of_nat (String.length s))); [|done].
      replace (Z.to_nat (width - Z.of_nat (String.length s))) with 0 by lia.
      by rewrite append_empty_r. }
    split_and!; [done| |].
    + rewrite Hpad, length_append, length_Repeat_space. lia.
    + rewrite Hpad, countVisible_plain by done.
      rewrite countVisible_plain_end by apply plainAscii_Repeat_space.
      rewrite length_Repeat_space. lia.
Qed.

Lemma padRight_pads_with_spaces_witness : padRight "main" 6 = "main  ".
Proof.
  destruct (padRight_pads_with_spaces "main" 6) as [_ Hplain].
  destruct Hplain as [-> _]; reflexivity.
Defined.

(** X16: colour codes take no room in a cell: a text of plain ASCII
    wrapped by [colorize] in one of the colours of the table gets exactly
    the spaces the bare text gets, and without colours (flag [--no-color]
    or no terminal) [colorize] returns the text unchanged. *)
Theorem padRight_ignores_colour_codes (color text : string) (width : Z) :
  color ∈ palette → plainAscii text = true →
  padRight (colorize false true color text) width
  = color +:+ text +:+ colorReset
    +:+ Repeat " " (Z.to_nat (width - Z.of_nat (String.length text)))
  ∧ (∀ noColor isTerminal, noColor || negb isTerminal = true →
       padRight (colorize noColor isTerminal color text) width = padRight text width).
Proof.
  intros Hcolor Htext. split.
  - unfold padRight, colorize, stripAnsi. simpl.
    rewrite countVisible_color by by right.
    rewrite countVisible_plain by done.
    rewrite <-(append_empty_r colorReset) at 1.
    rewrite countVisible_color by by left.
    simpl countVisible. rewrite Z.add_0_l.
    destruct (Z.leb_spec width (Z.of_nat (String.length text))).
    + replace (Z.to_nat (width - Z.of_nat (String.length text))) with 0 by lia.
      simpl Repeat. by rewrite append_empty_r.
    + by rewrite !append_assoc.
  - intros noColor isTerminal Hplain. unfold colorize. by rewrite Hplain.
Qed.

Lemma padRight_ignores_colour_codes_witness :
  padRight (colorize false true colorGray "?") 5
  = colorGray +:+ "?" +:+ colorReset +:+ "    ".
Proof.
  apply (padRight_ignores_colour_codes colorGray "?" 5).
  - unfold palette. apply list_elem_of_In. simpl. tauto.
  - reflexivity.
Defined.

(** X17: the PATH cell, [padRight(truncate(displayPath, width), width)],
    shows exactly [width] runes for every display path of plain ASCII and
    every width of at least one. *)
Theorem path_cell_has_the_column_width (displayPath : string) (width : Z) :
  plainAscii displayPath = true →
  (1 ≤ width < 2 ^ 63)%Z →
  (Z.of_nat (String.length displayPath) < 2 ^ 63 - 1)%Z →
  ∃ pathText, truncate displayPath width = Some pathText
    ∧ countVisible (padRight pathText width) 0 false 0 = width.
Proof.
  intros Hplain Hwidth Hlen. unfold truncate.
  destruct (Z.leb_spec (Z.of_nat (String.length displayPath)) width) as [Hfit|Hlong].
  - exists displayPath. split; [done|].
    destruct (padRight_pads_with_spaces displayPath width) as [_ Hpad].
    destruct (Hpad Hplain) as (_ & _ & ->). lia.
  - rewrite wrapInt_small by lia.
    destruct (Z.leb_spec 0 (width - 1)); [|lia].
    destruct (Z.leb_spec (width - 1) (Z.of_nat (String.length displayPath))); [|lia].
    simpl. eexists. split; [done|].
    assert (countVisible
              (String.substring 0 (Z.to_nat (width - 1)) displayPath +:+ "…") 0 false 0
            = width) as Hvisible.
    { rewrite countVisible_plain by by apply plainAscii_substring_0.
      rewrite length_substring_0 by lia.
      change (countVisible "…" 0 false (0 + Z.of_nat (Z.to_nat (width - 1))))
        with (0 + Z.of_nat (Z.to_nat (width - 1)) + 1)%Z.
      lia. }
    unfold padRight. rewrite Hvisible.
    by destruct (Z.leb_spec width width); [|lia].
Qed.

Lemma path_cell_has_the_column_width_witness :
  ∃ pathText, truncate "work.backend.worker" 10 = Some pathText
    ∧ countVisible (padRight pathText 10) 0 false 0 = 10%Z.
Proof.
  apply (path_cell_has_the_column_width "work.backend.worker" 10).
  - reflexivity.
  - lia.
  - vm_compute. reflexivity.
Defined.

(** ** The REMOTE cell *)

Lemma comment_is_not_diverged (n : Z) (tail : string) :
  8 < String.length tail → [itoa n +:+ tail] ≠ ["diverged"].
Proof.
  intros Htail [= Heq]. apply (f_equal String.length) in Heq.
  rewrite length_append in Heq. simpl in Heq. lia.
Qed.

(** X18: for counts that are not negative, the colour of the REMOTE cell
    follows its text: green exactly for the check mark, yellow exactly for
    a text that starts with the up arrow, red exactly for a text that
    starts with the down arrow without the comment "diverged", and
    magenta exactly with the comment "diverged"; a negative count gives a
    magenta check mark. *)
Theorem remote_colour_follows_text (status : RepoStatus) :
  (0 ≤ Ahead status)%Z → (0 ≤ Behind status)%Z →
  (remoteColor status = colorGreen ↔ (remoteText status).1 = "✔")
  ∧ (remoteColor status = colorYellow
     ↔ strings.HasPrefix (remoteText status).1 "↑" = true)
  ∧ (remoteColor status = colorRed
     ↔ strings.HasPrefix (remoteText status).1 "↓" = true
       ∧ (remoteText status).2 ≠ ["diverged"])
  ∧ (remoteColor status = colorMagenta ↔ (remoteText status).2 = ["diverged"])
  ∧ remoteColor (mkRepoStatus false false 0 (-1)) = colorMagenta
  ∧ (remoteText (mkRepoStatus false false 0 (-1))).1 = "✔".
Proof.
  intros Hahead Hbehind.
  pose proof (comment_is_not_diverged (Behind status) " commits behind origin")
    as Hbehind_comment.
  pose proof (comment_is_not_diverged (Ahead status) " unpushed commits")
    as Hahead_comment.
  unfold remoteColor, remoteText.
  destruct (IsDetached status), (NoTracking status); simpl;
    destruct (Z.ltb_spec 0 (Ahead status)), (Z.ltb_spec 0 (Behind status)),
      (Z.eqb_spec (Ahead status) 0), (Z.eqb_spec (Behind status) 0);
    try lia; simpl;
    (split_and!; [| | | |done|done]); split; intros Hgoal; try done;
    try (by vm_compute in Hgoal).
  all: try (match type of Hgoal with
            | _ ∧ _ => destruct Hgoal as [Hprefix Hne];
                       first [done|by vm_compute in Hprefix]
            end).
  all: try (split; [done|]).
  all: try (exfalso; revert Hgoal; first [apply Hbehind_comment|apply Hahead_comment];
            simpl; lia).
  all: try (first [apply Hbehind_comment|apply Hahead_comment]; simpl; lia).
  all: try discriminate.
  - apply prefix_append.
  - split; [apply prefix_append|]. apply Hbehind_comment. simpl. lia.
Qed.

Lemma remote_colour_follows_text_witness :
  remoteColor (mkRepoStatus false false 2 0) = colorRed.
Proof.
  destruct (remote_colour_follows_text (mkRepoStatus false false 2 0))
    as (_ & _ & Hred & _); [simpl; lia..|].
  apply Hred. split; [reflexivity|discriminate].
Defined.

(** ** The [sync] command *)

Lemma syncRepo_counters (fetchFlag : bool) repo o st :
  let st' := syncRepo fetchFlag repo o st in
  (cloned st' + fetched st' + skipped st' + failed st'
   = cloned st + fetched st + skipped st + failed st + 1)%Z
  ∧ (cloned st ≤ cloned st')%Z ∧ (fetched st ≤ fetched st')%Z
  ∧ (skipped st ≤ skipped st')%Z ∧ (failed st ≤ failed st')%Z
  ∧ (fetchFlag = false → fetched st' = fetched st)
  ∧ (fetchFlag = true → skipped st' = skipped st).
Proof.
  unfold syncRepo.
  destruct (gitExists o), fetchFlag, (gitFetchErr o), (gitCloneErr o); simpl;
    split_and!; try done; lia.
Qed.

Lemma syncLoop_counters (fetchFlag : bool) observe repos :
  ∀ i st,
    let st' := syncLoop fetchFlag observe i repos st in
    (cloned st' + fetched st' + skipped st' + failed st'
     = cloned st + fetched st + skipped st + failed st + Z.of_nat (length repos))%Z
    ∧ (cloned st ≤ cloned st')%Z ∧ (fetched st ≤ fetched st')%Z
    ∧ (skipped st ≤ skipped st')%Z ∧ (failed st ≤ failed st')%Z
    ∧ (fetchFlag = false → fetched st' = fetched st)
    ∧ (fetchFlag = true → skipped st' = skipped st).
Proof.
  induction repos as [|repo repos IH]; intros i st; simpl.
  { split_and!; try done; lia. }
  destruct (IH (S i) (syncRepo fetchFlag repo (observe i) st))
    as (Hsum & Hc & Hf & Hs & Hx & Hnofetch & Hfetch).
  destruct (syncRepo_counters fetchFlag repo (observe i) st)
    as (Hsum1 & Hc1 & Hf1 & Hs1 & Hx1 & Hnofetch1 & Hfetch1).
  simpl in *. split_and!; try lia.
  - intros Hflag. rewrite Hnofetch, Hnofetch1; done.
  - intros Hflag. rewrite Hfetch, Hfetch1; done.
Qed.

Lemma summaryParts_nonempty (st : syncState) :
  (0 ≤ cloned st)%Z → (0 ≤ fetched st)%Z → (0 ≤ skipped st)%Z → (0 ≤ failed st)%Z →
  (0 < cloned st + fetched st + skipped st + failed st)%Z →
  summaryParts st ≠ [].
Proof.
  intros Hc Hf Hs Hx Hsum. unfold summaryParts.
  destruct (Z.ltb_spec 0 (cloned st)), (Z.ltb_spec 0 (fetched st)),
    (Z.ltb_spec 0 (skipped st)), (Z.ltb_spec 0 (failed st)); simpl; try done; lia.
Qed.

(** X19: the loop of [sync] counts every repo exactly once: started from
    zero, the counters [cloned], [fetched], [skipped] and [failed] are
    never negative and add up to the number of repos, whatever git
    answers; without [--fetch] nothing is counted as fetched, and with it
    nothing as skipped. *)
Theorem sync_counts_every_repo_once (fetchFlag : bool) (observe : nat → gitOutcome)
    (repos : list RepoWithPath) :
  let st := syncLoop fetchFlag observe 0 repos (mkSyncState [] 0 0 0 0) in
  (cloned st + fetched st + skipped st + failed st = Z.of_nat (length repos))%Z
  ∧ (0 ≤ cloned st)%Z ∧ (0 ≤ fetched st)%Z ∧ (0 ≤ skipped st)%Z ∧ (0 ≤ failed st)%Z
  ∧ (fetchFlag = false → fetched st = 0%Z)
  ∧ (fetchFlag = true → skipped st = 0%Z).
Proof.
  destruct (syncLoop_counters fetchFlag observe repos 0 (mkSyncState [] 0 0 0 0))
    as (Hsum & Hc & Hf & Hs & Hx & Hnofetch & Hfetch).
  simpl in *. split_and!; try done; lia.
Qed.

Section SyncRun.

Variable UserHomeDir : string.
Variable filepath_Join : list string → string.

(** X20: once an account is selected, [sync] never returns an error,
    whatever git answers: failures are only counted.  When the filter
    selects at least one repo, the last line printed is the summary of the
    counters that are positive, and there is always at least one: the
    summary "nothing to do" is never printed. *)
Theorem sync_reports_failures_in_the_summary_only (cfg : Config)
    (accountFlag : string) (args : list string) order1 order2 repoOrder
    (fetchFlag : bool) (observe : nat → gitOutcome) account accountName :
  getAccount cfg accountFlag order1 order2 = Ok (account, accountName) →
  let repos := Account_GetRepos_range UserHomeDir filepath_Join account repoOrder
                 (firstArg args) in
  let run := syncRun UserHomeDir filepath_Join cfg accountFlag args order1 order2
               repoOrder fetchFlag observe in
  let st := syncLoop fetchFlag observe 0 repos (mkSyncState [] 0 0 0 0) in
  run.2 = None
  ∧ (repos = [] → length run.1 = 1)
  ∧ (repos ≠ [] →
     run.1 = syncOut st ++ [""; "Summary: " +:+ strings.Join (summaryParts st) ", "]
     ∧ summaryParts st ≠ []
     ∧ syncSummary st = summaryParts st).
Proof.
  intros Haccount. cbv zeta. unfold syncRun. rewrite Haccount.
  generalize (Account_GetRepos_range UserHomeDir filepath_Join account repoOrder
                (firstArg args)).
  intros [|repo repos].
  - change (length (@nil RepoWithPath) =? 0) with true. cbv iota.
    by destruct (negb (String.eqb (firstArg args) "")).
  - change (length (repo :: repos) =? 0) with false. cbv iota.
    set (st := syncLoop fetchFlag observe 0 (repo :: repos) (mkSyncState [] 0 0 0 0)).
    assert (summaryParts st ≠ []) as Hparts.
    { destruct (sync_counts_every_repo_once fetchFlag observe (repo :: repos))
        as (Hsum & Hc & Hf & Hs & Hx & _).
      apply summaryParts_nonempty; try done. fold st in Hsum. rewrite Hsum.
      simpl. lia. }
    assert (syncSummary st = summaryParts st) as Hsummary.
    { unfold syncSummary. by destruct (summaryParts st). }
    split_and!; [done|done|]. intros _. by rewrite Hsummary.
Qed.

End SyncRun.

Lemma sync_reports_failures_in_the_summary_only_witness :
  (syncRun "/home/u" joinWithSlash threeAccounts "work" [] threeOrder threeOrder []
     false (λ _, mkGitOutcome false None (Some "exit status 128"))).2 = None.
Proof.
  apply (sync_reports_failures_in_the_summary_only "/home/u" joinWithSlash
           threeAccounts "work" [] threeOrder threeOrder [] false
           (λ _, mkGitOutcome false None (Some "exit status 128"))
           workAccount "work").
  reflexivity.
Defined.

(** ** The parser and the visiting order of the tables *)

Lemma reordered_nested_ind (P : value → value → Prop) :
  (∀ v, P v v) →
  (∀ entries perm entries',
     Forall2 (λ kv kv', kv.1 = kv'.1 ∧ P kv.2 kv'.2) entries perm →
     perm ≡ₚ entries' → P (VMap entries) (VMap entries')) →
  ∀ v v', reordered v v' → P v v'.
Proof.
  intros Hsame Htable. fix IH 3.
  intros v v' [v0|entries perm entries' Hentries Hperm]; [apply Hsame|].
  apply (Htable entries perm entries'); [|exact Hperm].
  clear Hperm entries'. revert entries perm Hentries. fix IHentries 3.
  intros entries perm [|kv kv' entries0 perm0 [Hkey Hvalue] Hrest]; constructor.
  - split; [exact Hkey|]. apply IH. exact Hvalue.
  - apply IHentries. exact Hrest.
Qed.

Lemma foldl_insert_perm (l l' : list (string * list Repo)) (m : gmap string (list Repo)) :
  NoDup l.*1 → l ≡ₚ l' →
  foldl (λ m w, <[w.1 := w.2]> m) m l = foldl (λ m w, <[w.1 := w.2]> m) m l'.
Proof.
  intros Hnodup Hperm. revert m Hnodup.
  induction Hperm as [|w l l' Hperm IH|w1 w2 l|l1 l2 l3 H12 IH12 H23 IH23];
    intros m Hnodup; simpl.
  - done.
  - apply IH. rewrite fmap_cons in Hnodup. by apply NoDup_cons in Hnodup as [_ ?].
  - f_equal. apply insert_insert_ne.
    rewrite !fmap_cons in Hnodup. apply NoDup_cons in Hnodup as [Hw _].
    rewrite not_elem_of_cons in Hw. by destruct Hw.
  - rewrite IH12 by done. apply IH23. by rewrite <-H12.
Qed.

Lemma parseEntry_writes (v : value) :
  ∀ prefix key repos,
    parseEntry prefix key v repos
    = foldl (λ m w, <[w.1 := w.2]> m) repos (writesEntry prefix key v).
Proof.
  induction v as [s|b| |items|entries IH] using value_nested_ind;
    intros prefix key repos; try done.
  rewrite parseEntry_VMap. simpl writesEntry.
  generalize (if String.eqb prefix "" then key else prefix +:+ "." +:+ key).
  intros cur. unfold parseReposRecursive. revert repos.
  induction entries as [|[k x] entries IHe]; intros repos; [done|].
  inversion IH as [|?? IHx IHrest]; subst.
  rewrite bind_cons, foldl_app. simpl. rewrite IHe by done. by rewrite IHx.
Qed.

Lemma parseReposRecursive_writes (data : list (string * value)) prefix repos :
  parseReposRecursive data prefix repos
  = foldl (λ m w, <[w.1 := w.2]> m) repos (writes prefix data).
Proof.
  unfold parseReposRecursive, writes. revert repos.
  induction data as [|[k x] data IH]; intros repos; [done|].
  rewrite bind_cons, foldl_app. simpl. by rewrite IH, parseEntry_writes.
Qed.

Lemma writesEntry_reordered (v v' : value) :
  reordered v v' → ∀ prefix key, writesEntry prefix key v ≡ₚ writesEntry prefix key v'.
Proof.
  intros Hreordered.
  induction Hreordered as [v|entries perm entries' Hentries Hperm]
    using reordered_nested_ind; intros prefix key; [done|].
  simpl. generalize (if String.eqb prefix "" then key else prefix +:+ "." +:+ key).
  intros cur. rewrite <-Hperm. clear Hperm entries'.
  induction Hentries as [|[k x] [k' x'] entries perm [Hk Hx] Hrest IH]; [done|].
  simpl in Hk. subst k'. rewrite !bind_cons. by rewrite IH, (Hx cur k).
Qed.

(** X21: when no two repo arrays of a decoded tree are stored at the same
    logical path, the map built by [parseReposRecursive] does not depend
    on the order in which the tables are visited; when two arrays are
    stored at the same path, as with the keys [""] and ["/"] at the top,
    the one visited last wins. *)
Theorem parseReposRecursive_ignores_visiting_order
    (data data' : list (string * value)) (prefix : string)
    (repos : gmap string (list Repo)) :
  reordered (VMap data) (VMap data') →
  NoDup (writes prefix data).*1 →
  parseReposRecursive data prefix repos = parseReposRecursive data' prefix repos
  ∧ reordered (VMap clashTree) (VMap clashTree')
  ∧ parseReposRecursive clashTree "" ∅ = {[ "" := [mkRepo "u2" ""] ]}
  ∧ parseReposRecursive clashTree' "" ∅ = {[ "" := [mkRepo "u1" ""] ]}.
Proof.
  intros Hreordered Hnodup. split_and!.
  - rewrite !parseReposRecursive_writes. apply foldl_insert_perm; [done|].
    apply (writesEntry_reordered _ _ Hreordered "" prefix).
  - apply (reordered_table clashTree clashTree clashTree').
    + apply Forall_Forall2_diag, Forall_forall. intros kv _.
      split; [done|apply reordered_same].
    + apply perm_swap.
  - by vm_compute.
  - by vm_compute.
Qed.

Lemma parseReposRecursive_ignores_visiting_order_witness :
  parseReposRecursive roundTripTree "" ∅ = parseReposRecursive roundTripTree' "" ∅.
Proof.
  refine (proj1 (parseReposRecursive_ignores_visiting_order
                   roundTripTree roundTripTree' "" ∅ _ _)).
  - apply (reordered_table _ roundTripTree' _); [|reflexivity].
    repeat constructor. simpl.
    apply (reordered_table _
             [("b", VArray [urlItem "u1"]); ("/", VArray [urlItem "u2"])]);
      [|apply perm_swap].
    repeat constructor.
  - compute_done.
Defined.
